(** * Flow graph of the Dart VM optimizing compiler: model and verification

    A shallow embedding of [runtime/vm/compiler/backend/flow_graph.h]:
    the constant pool keys, the inlining table, the scalar accessors of
    [FlowGraph], the liveness driver, natural-loop discovery, redefinition
    insertion and [DefinitionWorklist].

    Conventions.
    - [intptr_t] and [uword] values are integers in [Z]; arithmetic that the
      header performs on them is wrapped to the 64-bit word.
    - [ASSERT] is compiled out of release builds and is recorded as a
      predicate next to the function it guards; [RELEASE_ASSERT] is kept in
      every build and is modelled as failure ([None]).
    - Arena objects that are shared by pointer (definitions, blocks) are
      addressed by small integers, and the fields read through the pointer
      are functions of that address. *)

From stdpp Require Import base tactics option list numbers gmap fin_sets.
From Stdlib Require Import ZArith Lia.

Local Open Scope Z_scope.

(* ================================================================== *)
(** * Part I: the model                                                 *)
(* ================================================================== *)

(** ** Machine integers *)

Definition kBitsPerWord : Z := 64.

(** Two's complement wrap-around of a signed word ([intptr_t]). *)
Definition wrap_intptr (z : Z) : Z :=
  (z + 2 ^ (kBitsPerWord - 1)) `mod` 2 ^ kBitsPerWord - 2 ^ (kBitsPerWord - 1).

(** [RELEASE_ASSERT(cond)]: continues when [cond] holds, aborts otherwise. *)
Definition RELEASE_ASSERT (cond : bool) : option unit :=
  if cond then Some () else None.

(** ** Objects and handles

    [object.h] is not part of the sources at hand; what the header uses of
    an [Object] handle is collected in a class. A handle carries the raw
    pointer it wraps ([ptr()]); its virtual methods may depend on the static
    type of the handle as well as on the pointer, which is why they are
    functions of the handle and not of the pointer. *)

Definition ObjectPtr := Z.

Record Object := mkObject {
  ptr : ObjectPtr;
  (** class id of the handle type the pointer is wrapped in *)
  handle_cid : Z;
}.

#[global] Instance Object_eq_dec : EqDecision Object.
Proof. solve_decision. Defined.

Class ObjectModel := {
  (** [Object::null()] *)
  null_ptr : ObjectPtr;
  (** [Object::IsInstance()] *)
  IsInstance : Object → bool;
  (** [Instance::CanonicalizeHash()], a virtual method of the handle *)
  CanonicalizeHash : Object → Z;
  (** [Object::GetClassId()] *)
  GetClassId : Object → Z;
  (** [Utils::WordHash] *)
  WordHash : Z → Z;
  (** the constant [kNullIdentityHash] *)
  kNullIdentityHash : Z;
}.

Definition IsNull `{ObjectModel} (o : Object) : bool :=
  bool_decide (ptr o = null_ptr).

(** Modelled from the spec: the value-representation enumeration
    ("tagged-pointer, unboxed-integer, unboxed-float"), declared in
    [locations.h] which is not among the sources. Only equality of
    representations is used. *)
Inductive Representation :=
| kNoRepresentation
| kTagged
| kUntagged
| kUnboxedDouble
| kUnboxedInt32
| kUnboxedInt64.

#[global] Instance Representation_eq_dec : EqDecision Representation.
Proof. solve_decision. Defined.

(** ** [ConstantAndRepresentation] (flow_graph.h:55-83) *)

Module ConstantAndRepresentation.

Section WithObjects.
Context `{ObjectModel}.

(** [ComputeHash] (flow_graph.h:67-78). *)
Definition ComputeHash (constant : Object) : Z :=
  if IsNull constant then kNullIdentityHash
  else if IsInstance constant then CanonicalizeHash constant
       else WordHash (GetClassId constant).

Record t := mk {
  constant_ : Object;
  representation_ : Representation;
  hash_ : Z;
}.

(** The constructor (flow_graph.h:57-60). *)
Definition new (constant : Object) (rep : Representation) : t :=
  mk constant rep (ComputeHash constant).

Definition constant (k : t) : Object := constant_ k.
Definition representation (k : t) : Representation := representation_ k.
Definition hash (k : t) : Z := hash_ k.

End WithObjects.

End ConstantAndRepresentation.

(** ** [ConstantInstr]

    Of [il.h] only what the pool trait reads is kept: the value handle, the
    representation and the SSA index a definition carries. *)
Record ConstantInstr := mkConstantInstr {
  value : Object;
  representation : Representation;
  constant_ssa_temp_index : Z;
}.

#[global] Instance ConstantInstr_eq_dec : EqDecision ConstantInstr.
Proof. solve_decision. Defined.

(** ** [ConstantPoolTrait] (flow_graph.h:85-100) *)

Module ConstantPoolTrait.

Section WithObjects.
Context `{ObjectModel}.

Definition KeyOf (kv : ConstantInstr) : ConstantAndRepresentation.t :=
  ConstantAndRepresentation.new (value kv) (representation kv).

Definition ValueOf (kv : ConstantInstr) : ConstantInstr := kv.

Definition Hash (key : ConstantAndRepresentation.t) : Z :=
  ConstantAndRepresentation.hash key.

(** [IsKeyEqual] (flow_graph.h:96-99). *)
Definition IsKeyEqual (kv : ConstantInstr) (key : ConstantAndRepresentation.t) : bool :=
  bool_decide (ptr (value kv) = ptr (ConstantAndRepresentation.constant key)) &&
  bool_decide (representation kv = ConstantAndRepresentation.representation key).

End WithObjects.

End ConstantPoolTrait.

(** ** [PrologueInfo] (flow_graph.h:102-119) *)

Record PrologueInfo := mkPrologueInfo {
  min_block_id : Z;
  max_block_id : Z;
}.

Definition PrologueInfo_Contains (p : PrologueInfo) (block_id : Z) : bool :=
  (min_block_id p <=? block_id) && (block_id <=? max_block_id p).

(** ** [InliningInfo] (flow_graph.h:121-141)

    Functions and token positions are opaque to the header; they are
    addressed by integers. *)

Definition FunctionPtr := Z.
Definition TokenPosition := Z.

Record InliningInfo := mkInliningInfo {
  inline_id_to_function : list FunctionPtr;
  inline_id_to_token_pos : list TokenPosition;
  caller_inline_id : list Z;
}.

(** [GrowableArray::Add]: append at the end. *)
Definition GrowableArray_Add {A} (a : list A) (x : A) : list A := a ++ [x].

(** The constructor (flow_graph.h:130-140): the three arrays start empty,
    the function and the caller id [-1] are added, no token position is. *)
Definition InliningInfo_new (function : FunctionPtr) : InliningInfo :=
  let empty := mkInliningInfo [] [] [] in
  let s1 := mkInliningInfo (GrowableArray_Add (inline_id_to_function empty) function)
                           (inline_id_to_token_pos empty)
                           (caller_inline_id empty) in
  mkInliningInfo (inline_id_to_function s1)
                 (inline_id_to_token_pos s1)
                 (GrowableArray_Add (caller_inline_id s1) (-1)).

(** ** The function being compiled

    [parser.h] is not among the sources. A [LocalVariable] is read through
    [index().value()] and [is_captured()]; a [ParsedFunction] through
    [num_stack_locals()], [current_context_var()] (always allocated) and
    [suspend_state_var()] (may be [nullptr]). *)

Record LocalVariable := mkLocalVariable {
  index_value : Z;
  is_captured : bool;
}.

Record ParsedFunction := mkParsedFunction {
  num_stack_locals : Z;
  current_context_var : LocalVariable;
  suspend_state_var : option LocalVariable;
}.

(** ** [FlowGraph]: scalar state (flow_graph.h:753-801) *)

Record FlowGraph := mkFlowGraph {
  current_ssa_temp_index_ : Z;
  max_block_id_ : Z;
  parsed_function_ : ParsedFunction;
  num_direct_parameters_ : Z;
  constant_instr_pool_ : list ConstantInstr;
  licm_allowed_ : bool;
  unmatched_representations_allowed_ : bool;
  huge_method_ : bool;
  prologue_info_ : PrologueInfo;
  inlining_id_ : Z;
  inlining_info_ : InliningInfo;
  max_argument_slot_count_ : Z;
}.

Module FG.

Definition set_current_ssa_temp_index (g : FlowGraph) (index : Z) : FlowGraph :=
  mkFlowGraph index (max_block_id_ g) (parsed_function_ g)
    (num_direct_parameters_ g) (constant_instr_pool_ g) (licm_allowed_ g)
    (unmatched_representations_allowed_ g) (huge_method_ g) (prologue_info_ g)
    (inlining_id_ g) (inlining_info_ g) (max_argument_slot_count_ g).

Definition set_constant_instr_pool (g : FlowGraph) (pool : list ConstantInstr) : FlowGraph :=
  mkFlowGraph (current_ssa_temp_index_ g) (max_block_id_ g) (parsed_function_ g)
    (num_direct_parameters_ g) pool (licm_allowed_ g)
    (unmatched_representations_allowed_ g) (huge_method_ g) (prologue_info_ g)
    (inlining_id_ g) (inlining_info_ g) (max_argument_slot_count_ g).

Definition write_max_argument_slot_count (g : FlowGraph) (count : Z) : FlowGraph :=
  mkFlowGraph (current_ssa_temp_index_ g) (max_block_id_ g) (parsed_function_ g)
    (num_direct_parameters_ g) (constant_instr_pool_ g) (licm_allowed_ g)
    (unmatched_representations_allowed_ g) (huge_method_ g) (prologue_info_ g)
    (inlining_id_ g) (inlining_info_ g) count.

(** [variable_count] (flow_graph.h:173-175). *)
Definition variable_count (g : FlowGraph) : Z :=
  wrap_intptr (num_direct_parameters_ g + num_stack_locals (parsed_function_ g)).

Definition SuspendStateVar (g : FlowGraph) : option LocalVariable :=
  suspend_state_var (parsed_function_ g).

Definition CurrentContextVar (g : FlowGraph) : LocalVariable :=
  current_context_var (parsed_function_ g).

(** [EnvIndex] (flow_graph.h:219-222). The debug assertion
    [!variable->is_captured()] is [EnvIndex_pre]. *)
Definition EnvIndex_pre (variable : LocalVariable) : Prop :=
  is_captured variable = false.

Definition EnvIndex (g : FlowGraph) (variable : LocalVariable) : Z :=
  wrap_intptr (num_direct_parameters_ g - index_value variable).

Definition CurrentContextEnvIndex (g : FlowGraph) : Z :=
  EnvIndex g (current_context_var (parsed_function_ g)).

(** [SuspendStateEnvIndex] dereferences [SuspendStateVar()]: it is defined
    only when the variable exists. *)
Definition SuspendStateEnvIndex (g : FlowGraph) : option Z :=
  EnvIndex g <$> SuspendStateVar g.

(** [IsImmortalVariable] (flow_graph.h:226-230); [&&] evaluates
    [SuspendStateEnvIndex()] only when the variable is not [nullptr]. *)
Definition IsImmortalVariable (g : FlowGraph) (env_index : Z) : bool :=
  bool_decide (env_index = CurrentContextEnvIndex g) ||
  match SuspendStateVar g with
  | Some v => bool_decide (env_index = EnvIndex g v)
  | None => false
  end.

(** [AllocateSSAIndex] (flow_graph.h:319-322): returns the index given to
    the definition and the graph with the counter advanced. *)
Definition AllocateSSAIndex (g : FlowGraph) : Z * FlowGraph :=
  (current_ssa_temp_index_ g,
   set_current_ssa_temp_index g (wrap_intptr (current_ssa_temp_index_ g + 1))).

(** [max_argument_slot_count] (flow_graph.h:608-611). *)
Definition max_argument_slot_count (g : FlowGraph) : option Z :=
  _ ← RELEASE_ASSERT (0 <=? max_argument_slot_count_ g);
  Some (max_argument_slot_count_ g).

(** [set_max_argument_slot_count] (flow_graph.h:612-615). *)
Definition set_max_argument_slot_count (g : FlowGraph) (count : Z) : option FlowGraph :=
  _ ← RELEASE_ASSERT (max_argument_slot_count_ g =? -1);
  Some (write_max_argument_slot_count g count).

(** A use of the slot count by a client: one call of the setter or one
    read. [run] performs a sequence of them and collects what the reads
    return; it fails as soon as a release assertion does. *)
Inductive SlotOp :=
| SetSlotCount (count : Z)
| ReadSlotCount.

Fixpoint run (g : FlowGraph) (ops : list SlotOp) : option (FlowGraph * list Z) :=
  match ops with
  | [] => Some (g, [])
  | SetSlotCount count :: rest =>
      g' ← set_max_argument_slot_count g count; run g' rest
  | ReadSlotCount :: rest =>
      c ← max_argument_slot_count g;
      '(g', cs) ← run g rest;
      Some (g', c :: cs)
  end.

End FG.

(** ** [BlockIterator] (flow_graph.h:31-53)

    The iterator reads a block order it does not own; blocks are
    addressed by integers. [Advance] asserts [!Done()] in debug builds:
    [Advance_pre]. [Current] reads [block_order_[current_]]; outside the
    array there is nothing to read. *)

Module BlockIterator.

Definition BlockPtr := nat.

Record t := mk {
  block_order_ : list BlockPtr;
  current_ : Z;
}.

Definition new (block_order : list BlockPtr) : t := mk block_order 0.

Definition Done (it : t) : bool :=
  Z.of_nat (length (block_order_ it)) <=? current_ it.

Definition Advance_pre (it : t) : Prop := Done it = false.

Definition Advance (it : t) : t :=
  mk (block_order_ it) (wrap_intptr (current_ it + 1)).

Definition Current (it : t) : option BlockPtr :=
  if 0 <=? current_ it then block_order_ it !! Z.to_nat (current_ it) else None.

End BlockIterator.
(** ** The constant pool (flow_graph.h:326-335, 788)

    [GetExistingConstant] and [GetConstant] are declared in the header and
    defined in [flow_graph.cc]; the map [constant_instr_pool_] is a
    [DirectChainedHashMap<ConstantPoolTrait>] from [hash_map.h]. Neither
    file is part of this development, so the three are modelled from the
    spec, on top of the trait the header does define. *)

Module ConstantPool.

Section WithObjects.
Context `{ObjectModel}.

(** Modelled from the spec: the search of a chain in
    [DirectChainedHashMap] ([hash_map.h] is missing); the pool is "keyed
    by a hash". An entry is looked at for a key when it sits in the chain
    of the key's hash, that is when the trait's [Hash] of its own key is
    the hash of the key, and it answers when the trait's [IsKeyEqual]
    accepts it. *)
Definition answers (key : ConstantAndRepresentation.t) (kv : ConstantInstr) : bool :=
  bool_decide (ConstantPoolTrait.Hash (ConstantPoolTrait.KeyOf kv) =
               ConstantPoolTrait.Hash key) &&
  ConstantPoolTrait.IsKeyEqual kv key.

(** Modelled from the spec: [DirectChainedHashMap::Lookup] ([hash_map.h]
    is missing). "A (value-identity, representation) pair mapped to a
    single canonical Definition, keyed by a hash": the map keeps the
    registered entries, the most recent first, and returns the first one
    that answers the key. *)
Definition Lookup (pool : list ConstantInstr)
    (key : ConstantAndRepresentation.t) : option ConstantInstr :=
  ConstantPoolTrait.ValueOf <$> List.find (answers key) pool.

(** Modelled from the spec: [DirectChainedHashMap::Insert] ([hash_map.h]
    is missing); "registering" an entry. *)
Definition Insert (pool : list ConstantInstr) (kv : ConstantInstr) : list ConstantInstr :=
  kv :: pool.

(** Modelled from the spec: the body of [GetExistingConstant]
    ([flow_graph.cc]) is missing. "[lookup(value, representation)] returns
    an existing one or indicates absence without creating". *)
Definition GetExistingConstant (g : FlowGraph) (object : Object)
    (representation : Representation) : option ConstantInstr :=
  Lookup (constant_instr_pool_ g) (ConstantAndRepresentation.new object representation).

(** Modelled from the spec: the body of [GetConstant] ([flow_graph.cc])
    is missing. "[get_or_create(value, representation)] returns the
    canonical Definition for that (value-identity, representation) pair,
    creating and registering one if absent". The new constant is a
    definition and receives an SSA index from [AllocateSSAIndex]. *)
Definition GetConstant (g : FlowGraph) (object : Object)
    (representation : Representation) : ConstantInstr * FlowGraph :=
  match GetExistingConstant g object representation with
  | Some constant => (constant, g)
  | None =>
      let '(index, g1) := FG.AllocateSSAIndex g in
      let constant := mkConstantInstr object representation index in
      (constant, FG.set_constant_instr_pool g1 (Insert (constant_instr_pool_ g1) constant))
  end.


End WithObjects.

End ConstantPool.
(** ** [BitVector] *)

Module BitVector.

(** Modelled from the spec: the class [BitVector] ([bit_vector.h]) is
    missing. "Bit-Set Utility: fixed-universe mutable set of small
    integers (variable or block indices)". A bit vector is the universe
    size it was allocated with and the set of indices whose bit is set;
    the operations below are the set operations the header calls.
    [AddAll] and [KillAndAdd] report whether the receiver changed.
    The universe is fixed when the vector is allocated: the bits are
    those of the indices in [0, length). An index outside it has no bit;
    setting or clearing it is outside what the class offers, and [Add]
    and [Remove] fail there ([None]). *)
Record t := mk {
  length : Z;
  data : gset Z;
}.

Definition new (length : Z) : t := mk length ∅.

(** The index has a bit in the vector. *)
Definition in_range (b : t) (i : Z) : bool := (0 <=? i) && (i <? length b).

Definition Contains (b : t) (i : Z) : bool := bool_decide (i ∈ data b).

Definition Add (b : t) (i : Z) : option t :=
  if in_range b i then Some (mk (length b) ({[i]} ∪ data b)) else None.

Definition Remove (b : t) (i : Z) : option t :=
  if in_range b i then Some (mk (length b) (data b ∖ {[i]})) else None.

Definition Clear (b : t) : t := mk (length b) ∅.

(** [this |= from] *)
Definition AddAll (b from : t) : t * bool :=
  (mk (length b) (data b ∪ data from),
   bool_decide (¬ data from ⊆ data b)).

(** [this |= gen & ~kill] *)
Definition KillAndAdd (b kill gen : t) : t * bool :=
  (mk (length b) (data b ∪ (data gen ∖ data kill)),
   bool_decide (¬ data gen ∖ data kill ⊆ data b)).

Definition universe (n : Z) : gset Z := list_to_set (seqZ 0 n).

Definition in_universe (b : t) : Prop := data b ⊆ universe (length b).

End BitVector.

#[global] Instance BitVector_inhabited : Inhabited BitVector.t :=
  populate (BitVector.new 0).
(** ** [DefinitionWorklist] (flow_graph.h:878-916)

    A [Definition*] is an address; [ssa_temp_index()] is read through it,
    so it is a function of the address given by the heap the compilation
    runs in. The worklist operations do not write it. *)

Definition DefinitionPtr := nat.

Class DefinitionHeap := {
  ssa_temp_index : DefinitionPtr → Z;
}.

(** SSA numbering: distinct definitions that have an SSA index carry
    distinct indices. *)
Definition ssa_indices_unique `{DefinitionHeap} : Prop :=
  ∀ d1 d2 : DefinitionPtr,
    0 ≤ ssa_temp_index d1 → ssa_temp_index d1 = ssa_temp_index d2 → d1 = d2.

Module DefinitionWorklist.

Record t := mk {
  defs_ : list DefinitionPtr;
  contains_vector_ : BitVector.t;
}.

Section WithHeap.
Context `{DefinitionHeap}.

(** The constructor (flow_graph.h:880-883): an empty array and a bit
    vector over the SSA indices allocated so far. *)
Definition new (flow_graph : FlowGraph) (initial_capacity : Z) : t :=
  mk [] (BitVector.new (current_ssa_temp_index_ flow_graph)).

(** [Contains] (flow_graph.h:892-895). *)
Definition Contains (w : t) (defn : DefinitionPtr) : bool :=
  (0 <=? ssa_temp_index defn) &&
  BitVector.Contains (contains_vector_ w) (ssa_temp_index defn).

(** [Add] (flow_graph.h:885-890). The call fails when the bit vector is
    asked for a bit it does not have. *)
Definition Add (w : t) (defn : DefinitionPtr) : option t :=
  if negb (Contains w defn)
  then
    let defs := GrowableArray_Add (defs_ w) defn in
    contains_vector ← BitVector.Add (contains_vector_ w) (ssa_temp_index defn);
    Some (mk defs contains_vector)
  else Some w.

Definition IsEmpty (w : t) : bool := bool_decide (defs_ w = []).

(** [RemoveLast] (flow_graph.h:899-903). [GrowableArray::RemoveLast] on an
    empty array is outside its contract: [None]; so is clearing a bit the
    vector does not have. *)
Definition RemoveLast (w : t) : option (DefinitionPtr * t) :=
  defn ← last (defs_ w);
  contains_vector ← BitVector.Remove (contains_vector_ w) (ssa_temp_index defn);
  Some (defn, mk (removelast (defs_ w)) contains_vector).

Definition definitions (w : t) : list DefinitionPtr := defs_ w.
Definition contains_vector (w : t) : BitVector.t := contains_vector_ w.

(** [Clear] (flow_graph.h:908-911). *)
Definition Clear (w : t) : t :=
  mk (take 0 (defs_ w)) (BitVector.Clear (contains_vector_ w)).

(** The definition's SSA index has a bit in the worklist's vector. *)
Definition covers (w : t) (defn : DefinitionPtr) : Prop :=
  BitVector.in_range (contains_vector_ w) (ssa_temp_index defn) = true.

(** The bit vector and the array agree: every bit set is a bit of the
    vector, every listed definition has one, [Contains] answers for the
    definitions that have one exactly whether they are listed, and none
    is listed twice. *)
Definition in_sync (w : t) : Prop :=
  BitVector.in_universe (contains_vector_ w) ∧
  (∀ d, d ∈ definitions w → covers w d) ∧
  (∀ d, covers w d → (Contains w d = true ↔ d ∈ definitions w)) ∧
  NoDup (definitions w).

End WithHeap.

End DefinitionWorklist.
(** ** [LivenessAnalysis] (flow_graph.h:804-876)

    The header gives the fields and the accessors; [Analyze],
    [UpdateLiveOut], [UpdateLiveIn] and [ComputeLiveInAndLiveOutSets] are
    declared there and defined in [flow_graph.cc], which is not part of
    this development: they are modelled from the spec (4.5) and from the
    comments on their declarations.

    A block is what the analysis reads of it: its postorder number and the
    postorder numbers of the successors of its last instruction. *)

Module Liveness.

Record BlockEntryInstr := mkBlock {
  postorder_number : nat;
  successors : list nat;
}.

(** Modelled from the spec: [ComputeInitialSets] is pure virtual and its
    overriders are missing. "Concrete subclasses supply the initial
    kill/gen computation": what a concrete analysis puts into the kill set
    and into the live-in set (gen) of each block. *)
Class InitialSets := {
  initial_kill : BlockEntryInstr → gset Z;
  initial_live_in : BlockEntryInstr → gset Z;
}.

Record t := mk {
  variable_count_ : Z;
  postorder_ : list BlockEntryInstr;
  live_out_ : list BitVector.t;
  kill_ : list BitVector.t;
  live_in_ : list BitVector.t;
}.

Definition GetLiveInSetAt (a : t) (postorder_number : nat) : BitVector.t :=
  live_in_ a !!! postorder_number.

Definition GetLiveOutSetAt (a : t) (postorder_number : nat) : BitVector.t :=
  live_out_ a !!! postorder_number.

Definition GetLiveInSet (a : t) (block : BlockEntryInstr) : BitVector.t :=
  GetLiveInSetAt a (postorder_number block).

Definition GetKillSet (a : t) (block : BlockEntryInstr) : BitVector.t :=
  kill_ a !!! postorder_number block.

Definition GetLiveOutSet (a : t) (block : BlockEntryInstr) : BitVector.t :=
  GetLiveOutSetAt a (postorder_number block).

(** Modelled from the spec: the loop of [UpdateLiveOut] over the
    successors (the body is missing): "live-out (union of successors'
    live-in)", "sets only grow". The live-in set of
    each is added to [live_out]. *)
Fixpoint AddSuccessors (live_in : list BitVector.t) (live_out : BitVector.t)
    (succs : list nat) : BitVector.t * bool :=
  match succs with
  | [] => (live_out, false)
  | succ :: rest =>
      let '(live_out1, changed1) := BitVector.AddAll live_out (live_in !!! succ) in
      let '(live_out2, changed2) := AddSuccessors live_in live_out1 rest in
      (live_out2, changed1 || changed2)
  end.

(** Modelled from the spec: the body of [UpdateLiveOut] is missing.
    The header: "live-out should contain all values that are live-in
    for block's successors. Returns true if live-out set was changed." *)
Definition UpdateLiveOut (a : t) (block : BlockEntryInstr) : t * bool :=
  let '(live_out, changed) :=
    AddSuccessors (live_in_ a) (GetLiveOutSet a block) (successors block) in
  (mk (variable_count_ a) (postorder_ a)
      (<[postorder_number block := live_out]> (live_out_ a)) (kill_ a) (live_in_ a),
   changed).

(** Modelled from the spec: the body of [UpdateLiveIn] is missing. The
    spec: "live-in (computed as (live-out - kill) + gen)", "sets only
    grow". The header: "live-in should contain all values that are live-out
    from the block and are not defined by this block. Returns true if
    live-in set was changed." *)
Definition UpdateLiveIn (a : t) (block : BlockEntryInstr) : t * bool :=
  let '(live_in, changed) :=
    BitVector.KillAndAdd (GetLiveInSet a block) (GetKillSet a block) (GetLiveOutSet a block) in
  (mk (variable_count_ a) (postorder_ a) (live_out_ a) (kill_ a)
      (<[postorder_number block := live_in]> (live_in_ a)),
   changed).

(** Modelled from the spec: one pass of the driver (the body of
    [ComputeLiveInAndLiveOutSets] is missing): "over blocks in postorder,
    recompute live-out then live-in for each block". *)
Fixpoint UpdateBlocks (a : t) (blocks : list BlockEntryInstr) : t * bool :=
  match blocks with
  | [] => (a, false)
  | block :: rest =>
      let '(a1, changed_out) := UpdateLiveOut a block in
      let '(a2, changed_in) := UpdateLiveIn a1 block in
      let '(a3, changed_rest) := UpdateBlocks a2 rest in
      (a3, changed_out || changed_in || changed_rest)
  end.

Definition Pass (a : t) : t * bool := UpdateBlocks a (postorder_ a).

(** Modelled from the spec: the body of [ComputeLiveInAndLiveOutSets] is
    missing. "Repeatedly ... until no set changes in a full pass"; the
    header: "Perform fix-point iteration updating live-out and live-in
    sets for blocks until they stop changing." [fuel] bounds the number of
    passes; [None] means it ran out. *)
Fixpoint ComputeLiveInAndLiveOutSets (fuel : nat) (a : t) : option t :=
  match fuel with
  | O => None
  | S fuel' =>
      let '(a', changed) := Pass a in
      if changed then ComputeLiveInAndLiveOutSets fuel' a' else Some a'
  end.

(** The constructor: nothing is allocated yet. *)
Definition new (variable_count : Z) (postorder : list BlockEntryInstr) : t :=
  mk variable_count postorder [] [] [].

(** Modelled from the spec: the first step of [Analyze] (its body is
    missing): "initialize all sets empty", one set of each kind per
    block. *)
Definition AllocateSets (a : t) : t :=
  let empty := BitVector.new (variable_count_ a) in
  let n := List.length (postorder_ a) in
  mk (variable_count_ a) (postorder_ a) (replicate n empty) (replicate n empty)
     (replicate n empty).

Section WithInitialSets.
Context `{InitialSets}.

(** Modelled from the spec: the effect of the missing overriders of
    [ComputeInitialSets] ("Compute initial values for live-out, kill and
    live-in sets" in the header). The spec has the subclasses supply kill
    and gen, all sets being empty before: the kill and live-in sets take
    their initial values, the live-out sets stay empty. *)
Definition ComputeInitialSets (a : t) : t :=
  mk (variable_count_ a) (postorder_ a) (live_out_ a)
     ((λ b, BitVector.mk (variable_count_ a) (initial_kill b)) <$> postorder_ a)
     ((λ b, BitVector.mk (variable_count_ a) (initial_live_in b)) <$> postorder_ a).

(** The number of passes after which the driver has certainly stopped:
    every pass but the last sets at least one of the
    2 * blocks * variables bits. *)
Definition pass_bound (a : t) : nat :=
  S (2 * List.length (postorder_ a) * Z.to_nat (variable_count_ a)).

(** Modelled from the spec: the body of [Analyze] is missing. The sets
    are allocated, given their initial values, and the driver runs; it is
    given [pass_bound] passes, which the proofs show to be enough. *)
Definition Analyze (a : t) : option t :=
  let a1 := ComputeInitialSets (AllocateSets a) in
  ComputeLiveInAndLiveOutSets (pass_bound a1) a1.

End WithInitialSets.

(** The blocks are numbered by their position in [postorder_] and their
    successors are blocks of the array. *)
Definition well_numbered (postorder : list BlockEntryInstr) : Prop :=
  ∀ i b, postorder !! i = Some b →
    postorder_number b = i ∧
    ∀ s, s ∈ successors b → (s < List.length postorder)%nat.

(** The union of the live-in sets of the successors of a block. *)
Definition successors_live_in (a : t) (block : BlockEntryInstr) : gset Z :=
  ⋃ ((λ s, BitVector.data (GetLiveInSetAt a s)) <$> successors block).

(** The state after [k] passes. *)
Fixpoint PassN (k : nat) (a : t) : t :=
  match k with
  | O => a
  | S k' => PassN k' (Pass a).1
  end.

(** Every live-in and live-out set of [a'] contains the set [a] has at the
    same block. *)
Definition grows (a a' : t) : Prop :=
  ∀ i, BitVector.data (GetLiveInSetAt a i) ⊆ BitVector.data (GetLiveInSetAt a' i) ∧
       BitVector.data (GetLiveOutSetAt a i) ⊆ BitVector.data (GetLiveOutSetAt a' i).

(** Every live-in and live-out set holds variable indices only. *)
Definition within_universe (a : t) : Prop :=
  ∀ i, BitVector.data (GetLiveInSetAt a i) ⊆ BitVector.universe (variable_count_ a) ∧
       BitVector.data (GetLiveOutSetAt a i) ⊆ BitVector.universe (variable_count_ a).

(** One live-in and one live-out set per block. *)
Definition allocated (a : t) : Prop :=
  List.length (live_in_ a) = List.length (postorder_ a) ∧
  List.length (live_out_ a) = List.length (postorder_ a).

Definition total_size (sets : list BitVector.t) : nat :=
  sum_list ((λ b, size (BitVector.data b)) <$> sets).

(** The number of bits set in the live-in and live-out sets. *)
Definition bits_set (a : t) : nat :=
  (total_size (live_in_ a) + total_size (live_out_ a))%nat.

(** What one update, or a sequence of updates, may do to the analysis:
    the blocks, the kill sets and the number of sets stay, the sets grow
    and stay within the universe, and they change exactly when the update
    says so, in which case a bit was added. *)
Definition step_props (a a' : t) (changed : bool) : Prop :=
  variable_count_ a' = variable_count_ a ∧
  postorder_ a' = postorder_ a ∧
  kill_ a' = kill_ a ∧
  List.length (live_in_ a') = List.length (live_in_ a) ∧
  List.length (live_out_ a') = List.length (live_out_ a) ∧
  grows a a' ∧
  (within_universe a → within_universe a') ∧
  (changed = false → a' = a) ∧
  (changed = true → (bits_set a < bits_set a')%nat) ∧
  (bits_set a ≤ bits_set a')%nat.

(** What holds of the sets all along the iteration: a live-out set holds
    nothing but what the successors have live-in, and a live-in set holds
    the block's gen set and beyond it nothing but what is live-out and not
    killed. *)
Definition sound `{InitialSets} (a : t) : Prop :=
  ∀ i b, postorder_ a !! i = Some b →
    BitVector.data (GetLiveOutSetAt a i) ⊆ successors_live_in a b ∧
    BitVector.data (GetLiveInSetAt a i) ⊆
      initial_live_in b ∪
      (BitVector.data (GetLiveOutSetAt a i) ∖ BitVector.data (kill_ a !!! i)) ∧
    initial_live_in b ⊆ BitVector.data (GetLiveInSetAt a i) ∧
    BitVector.data (kill_ a !!! i) = initial_kill b.

End Liveness.
(** ** Natural loops: [FlowGraph::FindLoopBlocks] (flow_graph.h:706-710)

    The header declares the function; its body is in [flow_graph.cc],
    which is not part of this development, so it is modelled from the
    header's comment and the spec (4.4).

    A block is addressed by its position in [preorder_]; the graph entry
    is at position 0. *)

Module Loops.

Definition BlockPtr := nat.

Record BlockEntryInstr := mkBlock {
  preorder_number : nat;
  predecessors : list BlockPtr;
}.

#[global] Instance BlockEntryInstr_inhabited : Inhabited BlockEntryInstr :=
  populate (mkBlock 0 []).

(** The part of [FlowGraph] that loop discovery reads. *)
Definition Graph := list BlockEntryInstr.

Definition block_at (preorder : Graph) (p : BlockPtr) : BlockEntryInstr :=
  preorder !!! p.

(** Modelled from the spec: the inner loop of [FindLoopBlocks] (body
    missing), over the predecessors of the popped block: each predecessor
    that is not yet in the loop is added to it and pushed. The head of
    [stack] is its top. *)
Fixpoint VisitPredecessors (preorder : Graph) (preds : list BlockPtr)
    (loop_blocks : BitVector.t) (stack : list BlockPtr)
    : option (BitVector.t * list BlockPtr) :=
  match preds with
  | [] => Some (loop_blocks, stack)
  | q :: rest =>
      let number := Z.of_nat (preorder_number (block_at preorder q)) in
      if negb (BitVector.Contains loop_blocks number)
      then
        loop_blocks' ← BitVector.Add loop_blocks number;
        VisitPredecessors preorder rest loop_blocks' (q :: stack)
      else VisitPredecessors preorder rest loop_blocks stack
  end.

(** Modelled from the spec: the [while] loop of [FindLoopBlocks] (body
    missing): "reverse reachability search from M, stopping at N"; a
    block is popped and expanded until the stack is empty. [fuel] bounds
    the number of blocks popped; the search also fails when a preorder
    number has no bit in the vector. *)
Fixpoint DrainStack (fuel : nat) (preorder : Graph) (stack : list BlockPtr)
    (loop_blocks : BitVector.t) : option BitVector.t :=
  match stack with
  | [] => Some loop_blocks
  | p :: stack' =>
      match fuel with
      | O => None
      | S fuel' =>
          '(loop_blocks', stack'') ←
            VisitPredecessors preorder (predecessors (block_at preorder p))
              loop_blocks stack';
          DrainStack fuel' preorder stack'' loop_blocks'
      end
  end.

(** Modelled from the spec: the body of [FindLoopBlocks] is missing. The
    header: "Finds the blocks in the natural loop for the back edge m->n.
    The algorithm is described in Advanced Compiler Design &
    Implementation (Muchnick) p192. Returns a BitVector indexed by block
    pre-order number where each bit indicates membership in the loop."
    That algorithm: the loop starts as {m, n}; m is pushed unless m = n;
    then the stack is drained. Every block is pushed
    at most once, so [length preorder] pops are enough. *)
Definition FindLoopBlocks (preorder : Graph) (m n : BlockPtr) : option BitVector.t :=
  let loop_blocks := BitVector.new (Z.of_nat (List.length preorder)) in
  loop_blocks ←
    BitVector.Add loop_blocks (Z.of_nat (preorder_number (block_at preorder n)));
  if decide (n ≠ m)
  then
    loop_blocks ←
      BitVector.Add loop_blocks (Z.of_nat (preorder_number (block_at preorder m)));
    DrainStack (List.length preorder) preorder [m] loop_blocks
  else DrainStack (List.length preorder) preorder [] loop_blocks.

(** Blocks are numbered by their position, and predecessors are blocks
    of the graph. *)
Definition well_formed (preorder : Graph) : Prop :=
  ∀ i b, preorder !! i = Some b →
    preorder_number b = i ∧
    ∀ q, q ∈ predecessors b → (q < List.length preorder)%nat.

(** The control-flow edge p -> q. *)
Definition edge (preorder : Graph) (p q : BlockPtr) : Prop :=
  (q < List.length preorder)%nat ∧ p ∈ predecessors (block_at preorder q).

(** [path g x z l]: [l] lists the blocks of a path from [x] to [z], both
    included. *)
Inductive path (preorder : Graph) : BlockPtr → BlockPtr → list BlockPtr → Prop :=
| path_end x :
    (x < List.length preorder)%nat → path preorder x x [x]
| path_step x y z l :
    edge preorder x y → path preorder y z l → path preorder x z (x :: l).

Definition entry : BlockPtr := 0%nat.

Definition reachable (preorder : Graph) (m : BlockPtr) : Prop :=
  ∃ l, path preorder entry m l.

(** "Block A dominates block B if every path from entry to B passes
    through A." *)
Definition dominates (preorder : Graph) (n m : BlockPtr) : Prop :=
  ∀ l, path preorder entry m l → n ∈ l.

(** [x] is in the natural loop of the back edge m -> n: m is reachable
    from [x] along a path that does not pass through n, that is, does not
    come to n after it has left [x]. *)
Definition in_natural_loop (preorder : Graph) (m n x : BlockPtr) : Prop :=
  ∃ l, path preorder x m l ∧ n ∉ tail l.

(** [x] reaches m along a path that does not touch n at all. *)
Definition reaches_avoiding (preorder : Graph) (m n x : BlockPtr) : Prop :=
  ∃ l, path preorder x m l ∧ n ∉ l.

(** The state of the search between two steps. [pending] are the
    predecessors of the block [p] being expanded that were not looked at
    yet; outside an expansion it is empty. *)
Definition search_inv (preorder : Graph) (m n : BlockPtr) (p : BlockPtr)
    (pending stack : list BlockPtr) (loop_blocks : BitVector.t) : Prop :=
  (∀ s, s ∈ stack →
     (s < List.length preorder)%nat ∧ Z.of_nat s ∈ BitVector.data loop_blocks ∧ s ≠ n) ∧
  (∀ z, z ∈ BitVector.data loop_blocks →
     ∃ x, z = Z.of_nat x ∧ (x < List.length preorder)%nat ∧
          (x = n ∨ reaches_avoiding preorder m n x)) ∧
  Z.of_nat m ∈ BitVector.data loop_blocks ∧
  Z.of_nat n ∈ BitVector.data loop_blocks ∧
  (∀ x q, (x < List.length preorder)%nat →
     Z.of_nat x ∈ BitVector.data loop_blocks → x ≠ n → x ∉ stack →
     q ∈ predecessors (block_at preorder x) →
     Z.of_nat q ∈ BitVector.data loop_blocks ∨ (x = p ∧ q ∈ pending)) ∧
  BitVector.length loop_blocks = Z.of_nat (List.length preorder).

(** Blocks on the stack plus blocks not yet in the loop: the number of
    pops still possible. *)
Definition search_budget (preorder : Graph) (stack : list BlockPtr)
    (loop_blocks : BitVector.t) : nat :=
  (List.length stack +
   size (BitVector.universe (Z.of_nat (List.length preorder)) ∖ BitVector.data loop_blocks))%nat.

End Loops.
(** ** Redefinitions: [FlowGraph::EnsureRedefinition] (flow_graph.h:420-427)

    The header declares [EnsureRedefinition], [InsertAfter] and
    [RenameDominatedUses]; their bodies are in [flow_graph.cc] and the
    instructions in [il.h], neither part of this development: they are
    modelled from the comments on the declarations and the spec (4.6).

    Instructions are addressed by the number the arena gave them. A block
    is the sequence of its instructions; which block dominates which is
    the dominator tree computed elsewhere. *)

Module Redefinition.

Definition InstrPtr := nat.

Record CompileType := mkCompileType {
  is_nullable : bool;
  cid : Z;
}.

#[global] Instance CompileType_eq_dec : EqDecision CompileType.
Proof. solve_decision. Defined.

Inductive InstrKind :=
| kRedefinition (constrained_type : CompileType)
| kOther.

(** Modelled from the spec: [Instruction] ([il.h]) is missing. "A node in
    a block's ordered list; may produce a value"; kept are its identity,
    whether it is a redefinition (with the constrained type) and the
    definitions it uses. *)
Record Instruction := mkInstr {
  instr_id : InstrPtr;
  kind : InstrKind;
  inputs : list InstrPtr;
}.

#[global] Instance InstrKind_eq_dec : EqDecision InstrKind.
Proof. solve_decision. Defined.

#[global] Instance Instruction_eq_dec : EqDecision Instruction.
Proof. solve_decision. Defined.

Record Graph := mkGraph {
  blocks : list (list Instruction);
  block_dominates : nat → nat → bool;
  next_instr_id : InstrPtr;
}.

(** Block number and place in the block. *)
Definition Position : Type := nat * nat.

(** The first place in a block where the instruction [id] stands. *)
Definition index_of (id : InstrPtr) (block : list Instruction) : option nat :=
  fst <$> list_find (λ u, instr_id u = id) block.

(** The first place in the graph where the instruction [id] stands. *)
Fixpoint locate_in (id : InstrPtr) (bs : list (list Instruction)) : option Position :=
  match bs with
  | [] => None
  | block :: rest =>
      match index_of id block with
      | Some k => Some (0%nat, k)
      | None => (λ p : Position, (S p.1, p.2)) <$> locate_in id rest
      end
  end.

Definition locate (g : Graph) (id : InstrPtr) : option Position :=
  locate_in id (blocks g).

Definition instr_at (bs : list (list Instruction)) (p : Position) : option Instruction :=
  block ← bs !! p.1; block !! p.2.

(** Modelled from the spec: [Instruction::next()] ([il.h]) is missing;
    the instruction that follows [prev] in its block. *)
Definition next (g : Graph) (prev : InstrPtr) : option Instruction :=
  p ← locate g prev; instr_at (blocks g) (p.1, S p.2).

(** Modelled from the spec: the test for "an equivalent redefinition ...
    already present" (body of [EnsureRedefinition] missing): a redefinition of
    [original] whose constrained type is equal to [compile_type]. *)
Definition is_equivalent (first : Instruction) (original : InstrPtr)
    (compile_type : CompileType) : bool :=
  match kind first with
  | kRedefinition constrained_type =>
      bool_decide (inputs first = [original]) &&
      bool_decide (constrained_type = compile_type)
  | kOther => false
  end.

Definition insert_at (k : nat) (instr : Instruction) (block : list Instruction) :
    list Instruction :=
  take (S k) block ++ instr :: drop (S k) block.

(** Modelled from the spec: the body of [InsertAfter] is missing.
    "splice an instruction into a block's sequence": [instr] is linked in
    right behind [prev]. *)
Definition InsertAfter (g : Graph) (prev : InstrPtr) (instr : Instruction) : Graph :=
  match locate g prev with
  | Some p =>
      mkGraph (alter (insert_at p.2 instr) p.1 (blocks g)) (block_dominates g)
              (next_instr_id g)
  | None => g
  end.

(** Modelled from the spec: dominance of a use by an instruction (body
    of [RenameDominatedUses] missing). "D's block dominates U's block, or
    D and U are in the same block with D appearing earlier"; the header:
    "uses that occur at instruction dom itself are not dominated by it".
    The instruction at [dom] dominates the use at [use]: it stands
    earlier in the same block, or in a block that dominates the block of
    the use. An instruction does not dominate itself. *)
Definition dominated_by (g : Graph) (dom use : Position) : bool :=
  if decide (use.1 = dom.1) then bool_decide (dom.2 < use.2)%nat
  else block_dominates g dom.1 use.1.

Definition rename_inputs (def other : InstrPtr) (u : Instruction) : Instruction :=
  mkInstr (instr_id u) (kind u)
          ((λ i, if decide (i = def) then other else i) <$> inputs u).

(** Modelled from the spec: the body of [RenameDominatedUses] is missing.
    The header: "Replaces uses that are dominated by dom of 'def' with
    'other'." *)
Definition RenameDominatedUses (g : Graph) (def dom other : InstrPtr) : Graph :=
  match locate g dom with
  | Some pd =>
      mkGraph
        (imap (λ b block,
                 imap (λ k u, if dominated_by g pd (b, k)
                              then rename_inputs def other u else u) block)
              (blocks g))
        (block_dominates g) (next_instr_id g)
  | None => g
  end.

(** The arena hands out the next instruction number. *)
Definition allocate (g : Graph) : InstrPtr * Graph :=
  (next_instr_id g, mkGraph (blocks g) (block_dominates g) (S (next_instr_id g))).

(** Modelled from the spec: the body of [EnsureRedefinition] is missing.
    The header: "Insert a redefinition of an original definition after
    prev and rename all dominated uses of the original. If an equivalent
    redefinition is already present, nothing is inserted. Returns the
    redefinition, if a redefinition was inserted, nullptr otherwise."
    [None]: [prev] is
    not an instruction of the graph that has a successor, which the
    function does not provide for. Otherwise the graph afterwards and the
    redefinition that was inserted, if one was. *)
Definition EnsureRedefinition (g : Graph) (prev original : InstrPtr)
    (compile_type : CompileType) : option (Graph * option Instruction) :=
  first ← next g prev;
  if is_equivalent first original compile_type then Some (g, None)
  else
    let '(id, g0) := allocate g in
    let redef := mkInstr id (kRedefinition compile_type) [original] in
    let g1 := InsertAfter g0 prev redef in
    let g2 := RenameDominatedUses g1 original (instr_id redef) (instr_id redef) in
    Some (g2, Some redef).

(** Every instruction of the graph was numbered by the arena. *)
Definition well_formed (g : Graph) : Prop :=
  ∀ block u, block ∈ blocks g → u ∈ block → (instr_id u < next_instr_id g)%nat.

(** [id] stands at [p] and nowhere before. *)
Definition first_at (bs : list (list Instruction)) (id : InstrPtr) (p : Position) : Prop :=
  ∃ block u,
    bs !! p.1 = Some block ∧ block !! p.2 = Some u ∧ instr_id u = id ∧
    (∀ j v, block !! j = Some v → (j < p.2)%nat → instr_id v ≠ id) ∧
    (∀ b block' v, bs !! b = Some block' → (b < p.1)%nat → v ∈ block' → instr_id v ≠ id).

End Redefinition.
(** ** [FlowGraph]: block ids (flow_graph.h:309-311) *)

Module BlockIds.

Definition set_max_block_id (g : FlowGraph) (id : Z) : FlowGraph :=
  mkFlowGraph (current_ssa_temp_index_ g) id (parsed_function_ g)
    (num_direct_parameters_ g) (constant_instr_pool_ g) (licm_allowed_ g)
    (unmatched_representations_allowed_ g) (huge_method_ g) (prologue_info_ g)
    (inlining_id_ g) (inlining_info_ g) (max_argument_slot_count_ g).

(** [allocate_block_id]: [return ++max_block_id_]. The id handed out is
    the incremented counter. *)
Definition allocate_block_id (g : FlowGraph) : Z * FlowGraph :=
  let id := wrap_intptr (max_block_id_ g + 1) in
  (id, set_max_block_id g id).

(** [count] calls of [allocate_block_id] in a row, as a pass does that
    creates several blocks; the ids are listed in the order they were
    handed out. *)
Fixpoint allocate_block_ids (count : nat) (g : FlowGraph) : list Z * FlowGraph :=
  match count with
  | O => ([], g)
  | S count' =>
      let '(id, g1) := allocate_block_id g in
      let '(ids, g2) := allocate_block_ids count' g1 in
      (id :: ids, g2)
  end.

End BlockIds.

(** ** [FlowGraph]: pass flags and [CopyDeoptTarget] (flow_graph.h:438-470) *)

Module Flags.

Definition is_licm_allowed (g : FlowGraph) : bool := licm_allowed_ g.

Definition disallow_licm (g : FlowGraph) : FlowGraph :=
  mkFlowGraph (current_ssa_temp_index_ g) (max_block_id_ g) (parsed_function_ g)
    (num_direct_parameters_ g) (constant_instr_pool_ g) false
    (unmatched_representations_allowed_ g) (huge_method_ g) (prologue_info_ g)
    (inlining_id_ g) (inlining_info_ g) (max_argument_slot_count_ g).

Definition unmatched_representations_allowed (g : FlowGraph) : bool :=
  unmatched_representations_allowed_ g.

Definition disallow_unmatched_representations (g : FlowGraph) : FlowGraph :=
  mkFlowGraph (current_ssa_temp_index_ g) (max_block_id_ g) (parsed_function_ g)
    (num_direct_parameters_ g) (constant_instr_pool_ g) (licm_allowed_ g)
    false (huge_method_ g) (prologue_info_ g)
    (inlining_id_ g) (inlining_info_ g) (max_argument_slot_count_ g).

Definition is_huge_method (g : FlowGraph) : bool := huge_method_ g.

Definition mark_huge_method (g : FlowGraph) : FlowGraph :=
  mkFlowGraph (current_ssa_temp_index_ g) (max_block_id_ g) (parsed_function_ g)
    (num_direct_parameters_ g) (constant_instr_pool_ g) (licm_allowed_ g)
    (unmatched_representations_allowed_ g) true (prologue_info_ g)
    (inlining_id_ g) (inlining_info_ g) (max_argument_slot_count_ g).

(** [set_inlining_id] (flow_graph.h:510). *)
Definition set_inlining_id (g : FlowGraph) (value : Z) : FlowGraph :=
  mkFlowGraph (current_ssa_temp_index_ g) (max_block_id_ g) (parsed_function_ g)
    (num_direct_parameters_ g) (constant_instr_pool_ g) (licm_allowed_ g)
    (unmatched_representations_allowed_ g) (huge_method_ g) (prologue_info_ g)
    value (inlining_info_ g) (max_argument_slot_count_ g).

(** [CopyDeoptTarget] (flow_graph.h:440-444). [Instruction::
    InheritDeoptTarget] is defined in [il.h]; it is a parameter: what
    [to] becomes when it inherits the target of [from]. The result is
    [to] after the call. *)
Definition CopyDeoptTarget {Instruction : Type}
    (InheritDeoptTarget : Instruction → Instruction → Instruction)
    (g : FlowGraph) (to from : Instruction) : Instruction :=
  if is_licm_allowed g then InheritDeoptTarget to from else to.

(** The member functions defined in the header that write a scalar field
    of the graph. *)
Inductive Mutator :=
| SetCurrentSsaTempIndex (index : Z)
| AllocateSSAIndex
| SetMaxBlockId (id : Z)
| AllocateBlockId
| DisallowLicm
| DisallowUnmatchedRepresentations
| MarkHugeMethod
| SetInliningId (value : Z)
| SetMaxArgumentSlotCount (count : Z).

#[global] Instance Mutator_eq_dec : EqDecision Mutator.
Proof. solve_decision. Defined.

(** One call; only [set_max_argument_slot_count] can abort. *)
Definition call (g : FlowGraph) (m : Mutator) : option FlowGraph :=
  match m with
  | SetCurrentSsaTempIndex index => Some (FG.set_current_ssa_temp_index g index)
  | AllocateSSAIndex => Some (FG.AllocateSSAIndex g).2
  | SetMaxBlockId id => Some (BlockIds.set_max_block_id g id)
  | AllocateBlockId => Some (BlockIds.allocate_block_id g).2
  | DisallowLicm => Some (disallow_licm g)
  | DisallowUnmatchedRepresentations => Some (disallow_unmatched_representations g)
  | MarkHugeMethod => Some (mark_huge_method g)
  | SetInliningId value => Some (set_inlining_id g value)
  | SetMaxArgumentSlotCount count => FG.set_max_argument_slot_count g count
  end.

(** A sequence of calls, in order. *)
Fixpoint calls (g : FlowGraph) (ms : list Mutator) : option FlowGraph :=
  match ms with
  | [] => Some g
  | m :: rest => g' ← call g m; calls g' rest
  end.

End Flags.

(** ** [FlowGraph]: the loop hierarchy cache (flow_graph.h:474-503)

    [ComputeLoops] is declared in the header and defined in
    [flow_graph.cc]; it is a parameter: the hierarchy it builds from the
    blocks of the graph. [LoopHierarchy] and the per-header sets of
    invariant loads are opaque to the header. The state is the two loop
    related fields and the blocks [ComputeLoops] reads. *)

Module LoopCache.

Section WithLoops.
Context {Blocks LoopHierarchy InvariantLoads : Type}.
Context (ComputeLoops : Blocks → LoopHierarchy).

Record t := mk {
  blocks_ : Blocks;
  loop_hierarchy_ : option LoopHierarchy;
  loop_invariant_loads_ : option InvariantLoads;
}.

(** [loop_hierarchy] dereferences [loop_hierarchy_]: it has a value only
    when the pointer is not [nullptr]. *)
Definition loop_hierarchy (g : t) : option LoopHierarchy := loop_hierarchy_ g.

(** [GetLoopHierarchy] (flow_graph.h:475-480). *)
Definition GetLoopHierarchy (g : t) : LoopHierarchy * t :=
  match loop_hierarchy_ g with
  | None =>
      let h := ComputeLoops (blocks_ g) in
      (h, mk (blocks_ g) (Some h) (loop_invariant_loads_ g))
  | Some h => (h, g)
  end.

(** [ResetLoopHierarchy] (flow_graph.h:489-492). *)
Definition ResetLoopHierarchy (g : t) : t := mk (blocks_ g) None None.

Definition loop_invariant_loads (g : t) : option InvariantLoads :=
  loop_invariant_loads_ g.

Definition set_loop_invariant_loads (g : t) (loads : option InvariantLoads) : t :=
  mk (blocks_ g) (loop_hierarchy_ g) loads.

(** A transformation of the blocks by a pass; the loop fields are not
    written by anything but the functions above. *)
Definition with_blocks (g : t) (blocks : Blocks) : t :=
  mk blocks (loop_hierarchy_ g) (loop_invariant_loads_ g).

End WithLoops.

Arguments t : clear implicits.

End LoopCache.

(** ** Draining a [DefinitionWorklist]

    The loop passes run over their worklist:
    [while (!worklist.IsEmpty()) { defn = worklist.RemoveLast(); ... }],
    here without additions in the body. The definitions are listed in the
    order [RemoveLast] returned them. *)

Module WorklistLoop.

Section WithHeap.
Context `{DefinitionHeap}.

Fixpoint Drain (fuel : nat) (w : DefinitionWorklist.t)
    : option (list DefinitionPtr * DefinitionWorklist.t) :=
  if DefinitionWorklist.IsEmpty w then Some ([], w)
  else match fuel with
       | O => None
       | S fuel' =>
           '(defn, w1) ← DefinitionWorklist.RemoveLast w;
           '(defns, w2) ← Drain fuel' w1;
           Some (defn :: defns, w2)
       end.

End WithHeap.

End WorklistLoop.

(** ** Hashing by pointer

    Outside null, the hash methods of [Object] answer for the object a
    handle points to: two handles on the same non-null pointer agree on
    them. For null the answer may depend on the handle, which is what
    [ComputeHash] works around. *)
Definition hash_by_pointer `{ObjectModel} : Prop :=
  ∀ o1 o2 : Object,
    ptr o1 = ptr o2 → ptr o1 ≠ null_ptr →
    IsInstance o1 = IsInstance o2 ∧
    CanonicalizeHash o1 = CanonicalizeHash o2 ∧
    GetClassId o1 = GetClassId o2.
(** ** Sample data used by the examples *)

(** A heap in which the hash of an instance depends on the class of the
    handle that wraps it, as the caveat in [ComputeHash] describes. *)
Definition handle_sensitive_objects : ObjectModel := {|
  null_ptr := 0;
  IsInstance := λ _, true;
  CanonicalizeHash := λ o, handle_cid o * 31 + ptr o;
  GetClassId := handle_cid;
  WordHash := λ w, w;
  kNullIdentityHash := 2011;
|}.

(** A graph as the constructor leaves it: no constants, no inlined
    functions besides the top scope, the slot count unset. *)
Definition fresh_graph : FlowGraph := {|
  current_ssa_temp_index_ := 0;
  max_block_id_ := 0;
  parsed_function_ := mkParsedFunction 2 (mkLocalVariable (-1) false) None;
  num_direct_parameters_ := 1;
  constant_instr_pool_ := [];
  licm_allowed_ := true;
  unmatched_representations_allowed_ := true;
  huge_method_ := false;
  prologue_info_ := mkPrologueInfo 0 0;
  inlining_id_ := 0;
  inlining_info_ := InliningInfo_new 0;
  max_argument_slot_count_ := -1;
|}.


(** A heap in SSA form: definition [d] carries index [d - 1], so that
    definition 0 has no index yet (-1) and the others are numbered
    densely. *)
Definition ssa_heap : DefinitionHeap := {|
  ssa_temp_index := λ d, Z.of_nat d - 1;
|}.

(** A heap in which definitions 2 and 3 carry the same index. *)
Definition colliding_heap : DefinitionHeap := {|
  ssa_temp_index := λ d, Z.of_nat (d `div` 2);
|}.

(** A loop of three blocks, numbered in postorder: block 2 is the entry
    and jumps to block 1, the loop header; block 1 branches to block 0,
    the loop body, which jumps back to block 1. Variable 0 is read in the
    body before it is written, variable 1 is written in the header. *)
Definition loop_postorder : list Liveness.BlockEntryInstr :=
  [Liveness.mkBlock 0 [1%nat]; Liveness.mkBlock 1 [0%nat]; Liveness.mkBlock 2 [1%nat]].

Definition loop_initial_sets : Liveness.InitialSets := {|
  Liveness.initial_kill := λ b,
    if decide (Liveness.postorder_number b = 1%nat) then {[1]} else ∅;
  Liveness.initial_live_in := λ b,
    if decide (Liveness.postorder_number b = 0%nat) then {[0; 1]} else ∅;
|}.

(** Entry 0, header H = 1, body B1 = 2, latch L = 3 with the back edge
    L -> H, and the exit 4 behind the latch. *)
Definition loop_graph : Loops.Graph :=
  [Loops.mkBlock 0 []; Loops.mkBlock 1 [0%nat; 3%nat]; Loops.mkBlock 2 [1%nat];
   Loops.mkBlock 3 [2%nat]; Loops.mkBlock 4 [3%nat]].

(** One block: the entry 0, a definition 1, a check 2 on it, and two
    uses 3 and 4 of the definition behind the check. *)
Definition checked_block : Redefinition.Graph := {|
  Redefinition.blocks :=
    [[Redefinition.mkInstr 0%nat Redefinition.kOther [];
      Redefinition.mkInstr 1%nat Redefinition.kOther [];
      Redefinition.mkInstr 2%nat Redefinition.kOther [1%nat];
      Redefinition.mkInstr 3%nat Redefinition.kOther [1%nat];
      Redefinition.mkInstr 4%nat Redefinition.kOther [1%nat; 3%nat]]];
  Redefinition.block_dominates := λ _ _, false;
  Redefinition.next_instr_id := 5%nat;
|}.

(** A heap in which instances hash by pointer and only the hash of null
    depends on the class of the handle. *)
Definition pointer_hashed_objects : ObjectModel := {|
  null_ptr := 0;
  IsInstance := λ _, true;
  CanonicalizeHash := λ o, if decide (ptr o = 0) then handle_cid o else ptr o * 31;
  GetClassId := ptr;
  WordHash := λ w, w;
  kNullIdentityHash := 2011;
|}.

(** A graph whose prologue owns the blocks 1 to 3, that has seven blocks
    so far and twelve numbered definitions. *)
Definition graph_after_prologue : FlowGraph := {|
  current_ssa_temp_index_ := 12;
  max_block_id_ := 7;
  parsed_function_ := mkParsedFunction 2 (mkLocalVariable (-1) false) None;
  num_direct_parameters_ := 1;
  constant_instr_pool_ := [];
  licm_allowed_ := true;
  unmatched_representations_allowed_ := true;
  huge_method_ := false;
  prologue_info_ := mkPrologueInfo 1 3;
  inlining_id_ := 0;
  inlining_info_ := InliningInfo_new 0;
  max_argument_slot_count_ := -1;
|}.
(* ================================================================== *)
(** * Part II: properties                                               *)
(* ================================================================== *)

(** ** Inlining table *)

(** C10. After [InliningInfo] is constructed for a top-scope function,
    [inline_id_to_function] and [caller_inline_id] are each exactly one
    longer than [inline_id_to_token_pos]; the function sits at inlining id
    0 and its caller id is -1. *)
Theorem InliningInfo_new_lengths (function : FunctionPtr) :
  let info := InliningInfo_new function in
  length (inline_id_to_function info) = S (length (inline_id_to_token_pos info)) ∧
  length (caller_inline_id info) = S (length (inline_id_to_token_pos info)) ∧
  inline_id_to_function info !! 0%nat = Some function ∧
  caller_inline_id info !! 0%nat = Some (-1).
Proof.
  intros info. subst info. unfold InliningInfo_new, GrowableArray_Add. simpl.
  repeat split.
Qed.

(** ** Immortal variables *)

(** C5. [IsImmortalVariable env_index] is true exactly when [env_index] is
    the environment index of the current-context variable, or the function
    has a suspend-state variable and [env_index] is that variable's
    environment index; in a function without a suspend-state variable every
    index other than the context slot gives false. *)
Theorem IsImmortalVariable_spec (g : FlowGraph) (env_index : Z) :
  (FG.IsImmortalVariable g env_index = true ↔
     env_index = FG.CurrentContextEnvIndex g ∨
     ∃ v, FG.SuspendStateVar g = Some v ∧ env_index = FG.EnvIndex g v) ∧
  (FG.SuspendStateVar g = None →
     (FG.IsImmortalVariable g env_index = false ↔
        env_index ≠ FG.CurrentContextEnvIndex g)).
Proof.
  unfold FG.IsImmortalVariable. split.
  - rewrite orb_true_iff, bool_decide_eq_true.
    destruct (FG.SuspendStateVar g) as [v|] eqn:Hs.
    + rewrite bool_decide_eq_true. split.
      * intros [Hc|Hv]; [by left | right; by exists v].
      * intros [Hc|(v' & Hv' & Hi)]; [by left | right; congruence].
    + split.
      * intros [Hc|Hf]; [by left | discriminate].
      * intros [Hc|(v' & Hv' & _)]; [by left | discriminate].
  - intros ->. rewrite orb_false_r, bool_decide_eq_false. tauto.
Qed.

(** ** Hash of a null constant *)


(** C6. The pool's hash maps every null constant to the one sentinel
    [kNullIdentityHash], whatever handle wraps the null; two keys built
    from null values have the same [hash()]. *)
Theorem null_constant_hash `{ObjectModel} (c1 c2 : Object) (r1 r2 : Representation) :
  IsNull c1 = true → IsNull c2 = true →
  ConstantAndRepresentation.hash (ConstantAndRepresentation.new c1 r1) = kNullIdentityHash ∧
  ConstantPoolTrait.Hash (ConstantAndRepresentation.new c1 r1) =
    ConstantPoolTrait.Hash (ConstantAndRepresentation.new c2 r2).
Proof.
  intros H1 H2.
  unfold ConstantPoolTrait.Hash, ConstantAndRepresentation.hash,
    ConstantAndRepresentation.new; simpl.
  unfold ConstantAndRepresentation.ComputeHash.
  rewrite H1, H2. split; reflexivity.
Qed.

Lemma null_constant_hash_witness :
  let H := handle_sensitive_objects in
  ConstantAndRepresentation.hash
    (ConstantAndRepresentation.new (mkObject 0 5) kTagged) = 2011 ∧
  ConstantPoolTrait.Hash (ConstantAndRepresentation.new (mkObject 0 5) kTagged) =
    ConstantPoolTrait.Hash (ConstantAndRepresentation.new (mkObject 0 9) kUnboxedDouble).
Proof.
  intros H.
  apply (@null_constant_hash H (mkObject 0 5) (mkObject 0 9) kTagged kUnboxedDouble);
    reflexivity.
Defined.

(** ** Outgoing argument slots *)


Lemma run_reads (g : FlowGraph) (reads : nat) :
  0 ≤ max_argument_slot_count_ g →
  FG.run g (replicate reads FG.ReadSlotCount) =
    Some (g, replicate reads (max_argument_slot_count_ g)).
Proof.
  intros Hset. induction reads as [|k IH]; simpl; [done|].
  unfold FG.max_argument_slot_count, RELEASE_ASSERT.
  destruct (Z.leb_spec 0 (max_argument_slot_count_ g)); [|lia].
  simpl. rewrite IH. reflexivity.
Qed.

(** C7 (amended). The setter passes its release assertion exactly when the
    count is unset (-1); the getter passes its release assertion exactly
    when the stored count is non-negative; and when the setter is called
    once, with a non-negative count, on a graph whose count is unset, every
    later read returns that count, no assertion fires, and any further call
    of the setter fails. *)
Theorem max_argument_slot_count_set_once :
  (∀ g count, is_Some (FG.set_max_argument_slot_count g count) ↔
                max_argument_slot_count_ g = -1) ∧
  (∀ g, is_Some (FG.max_argument_slot_count g) ↔ 0 ≤ max_argument_slot_count_ g) ∧
  (∀ g count reads,
     max_argument_slot_count_ g = -1 → 0 ≤ count →
     ∃ g', FG.run g (FG.SetSlotCount count :: replicate reads FG.ReadSlotCount) =
             Some (g', replicate reads count) ∧
           ∀ count', FG.set_max_argument_slot_count g' count' = None).
Proof.
  split; [|split].
  - intros g count. unfold FG.set_max_argument_slot_count, RELEASE_ASSERT.
    destruct (Z.eqb_spec (max_argument_slot_count_ g) (-1)) as [He|Hne]; simpl.
    + split; [done | by eexists].
    + split; [by intros [? ?] | done].
  - intros g. unfold FG.max_argument_slot_count, RELEASE_ASSERT.
    destruct (Z.leb_spec 0 (max_argument_slot_count_ g)) as [Hle|Hlt]; simpl.
    + split; [done | by eexists].
    + split; [by intros [? ?] | lia].
  - intros g count reads Hunset Hcount.
    exists (FG.write_max_argument_slot_count g count). split.
    + simpl. unfold FG.set_max_argument_slot_count, RELEASE_ASSERT.
      rewrite Hunset. simpl.
      by rewrite run_reads.
    + intros count'. unfold FG.set_max_argument_slot_count, RELEASE_ASSERT. simpl.
      destruct (Z.eqb_spec count (-1)); [lia | done].
Qed.

Lemma max_argument_slot_count_set_once_witness :
  ∃ g', FG.run fresh_graph [FG.SetSlotCount 3; FG.ReadSlotCount; FG.ReadSlotCount] =
          Some (g', [3; 3]) ∧
        ∀ count', FG.set_max_argument_slot_count g' count' = None.
Proof.
  destruct max_argument_slot_count_set_once as (_ & _ & Honce).
  apply (Honce fresh_graph 3 2%nat); [reflexivity | lia].
Defined.

(** C7 as stated fails for a negative count: the setter accepts it once,
    and the getter's release assertion fires on the first read. *)
Lemma max_argument_slot_count_negative_count :
  FG.run fresh_graph [FG.SetSlotCount (-2); FG.ReadSlotCount] = None ∧
  is_Some (FG.set_max_argument_slot_count fresh_graph (-2)).
Proof. split; [reflexivity | by eexists]. Qed.

(** ** Constant pool *)

Section ConstantPoolFacts.
Context `{ObjectModel}.










End ConstantPoolFacts.

Lemma pointer_hashed_objects_by_pointer : @hash_by_pointer pointer_hashed_objects.
Proof.
  intros [p1 c1] [p2 c2]. simpl. intros -> Hp. repeat split.
  destruct (decide (p2 = 0)); [done|reflexivity].
Qed.



(** The hypothesis is needed: in a heap where the hash of an instance
    depends on the handle, a second handle on the same object is looked
    up in another chain, and a second constant is made for it. *)
Example GetConstant_handle_sensitive :
  let H := handle_sensitive_objects in
  let '(c1, g1) := ConstantPool.GetConstant fresh_graph (mkObject 40 7) kTagged in
  (ConstantPool.GetConstant g1 (mkObject 40 8) kTagged).1 ≠ c1 ∧
  ConstantPool.GetConstant g1 (mkObject 40 7) kTagged = (c1, g1).
Proof. by vm_compute. Qed.

(** ** Definition worklist *)

Lemma elem_of_universe (n i : Z) : i ∈ BitVector.universe n ↔ 0 ≤ i < n.
Proof.
  unfold BitVector.universe. rewrite elem_of_list_to_set, elem_of_seqZ. lia.
Qed.

Lemma in_range_spec (b : BitVector.t) (i : Z) :
  BitVector.in_range b i = true ↔ 0 ≤ i < BitVector.length b.
Proof.
  unfold BitVector.in_range. rewrite andb_true_iff, Z.leb_le, Z.ltb_lt. done.
Qed.

Lemma BitVector_Add_in_range (b : BitVector.t) (i : Z) :
  BitVector.in_range b i = true →
  BitVector.Add b i = Some (BitVector.mk (BitVector.length b) ({[i]} ∪ BitVector.data b)).
Proof. intros Hi. unfold BitVector.Add. by rewrite Hi. Qed.

Lemma BitVector_Remove_in_range (b : BitVector.t) (i : Z) :
  BitVector.in_range b i = true →
  BitVector.Remove b i = Some (BitVector.mk (BitVector.length b) (BitVector.data b ∖ {[i]})).
Proof. intros Hi. unfold BitVector.Remove. by rewrite Hi. Qed.

Section WorklistFacts.
Context `{DefinitionHeap}.

Lemma Contains_bit (w : DefinitionWorklist.t) (d : DefinitionPtr) :
  0 ≤ ssa_temp_index d →
  DefinitionWorklist.Contains w d = true ↔
  ssa_temp_index d ∈ BitVector.data (DefinitionWorklist.contains_vector_ w).
Proof.
  intros Hd. unfold DefinitionWorklist.Contains, BitVector.Contains.
  rewrite andb_true_iff, bool_decide_eq_true, Z.leb_le. tauto.
Qed.

Lemma covers_index (w : DefinitionWorklist.t) (d : DefinitionPtr) :
  DefinitionWorklist.covers w d ↔
  0 ≤ ssa_temp_index d <
    BitVector.length (DefinitionWorklist.contains_vector_ w).
Proof. apply in_range_spec. Qed.

Lemma in_sync_new (g : FlowGraph) (capacity : Z) :
  DefinitionWorklist.in_sync (DefinitionWorklist.new g capacity).
Proof.
  split; [|split; [|split]].
  - unfold BitVector.in_universe. simpl. set_solver.
  - by intros d ?%elem_of_nil.
  - intros d Hd%covers_index. rewrite Contains_bit by lia. simpl.
    split; [set_solver | by intros ?%elem_of_nil].
  - apply NoDup_nil_2.
Qed.

Lemma in_sync_Clear (w : DefinitionWorklist.t) :
  DefinitionWorklist.in_sync (DefinitionWorklist.Clear w).
Proof.
  split; [|split; [|split]].
  - unfold BitVector.in_universe. simpl. set_solver.
  - by intros d ?%elem_of_nil.
  - intros d Hd%covers_index. rewrite Contains_bit by lia. simpl.
    split; [set_solver | by intros ?%elem_of_nil].
  - apply NoDup_nil_2.
Qed.

Lemma Add_present (w : DefinitionWorklist.t) (d : DefinitionPtr) :
  DefinitionWorklist.Contains w d = true → DefinitionWorklist.Add w d = Some w.
Proof. intros Hc. unfold DefinitionWorklist.Add. by rewrite Hc. Qed.

(** A definition that has a bit and is not contained is appended, and
    its bit is set. *)
Lemma Add_absent (w : DefinitionWorklist.t) (d : DefinitionPtr) :
  DefinitionWorklist.covers w d →
  DefinitionWorklist.Contains w d = false →
  DefinitionWorklist.Add w d =
    Some (DefinitionWorklist.mk
            (DefinitionWorklist.defs_ w ++ [d])
            (BitVector.mk (BitVector.length (DefinitionWorklist.contains_vector_ w))
               ({[ssa_temp_index d]} ∪
                BitVector.data (DefinitionWorklist.contains_vector_ w)))).
Proof.
  intros Hd Hc. unfold DefinitionWorklist.Add. rewrite Hc. simpl.
  by rewrite BitVector_Add_in_range.
Qed.

(** The last definition of a worklist has a bit: it is returned and its
    bit is cleared. *)
Lemma RemoveLast_snoc (defs : list DefinitionPtr) (d : DefinitionPtr)
    (bits : BitVector.t) :
  BitVector.in_range bits (ssa_temp_index d) = true →
  DefinitionWorklist.RemoveLast (DefinitionWorklist.mk (defs ++ [d]) bits) =
    Some (d, DefinitionWorklist.mk defs
               (BitVector.mk (BitVector.length bits)
                  (BitVector.data bits ∖ {[ssa_temp_index d]}))).
Proof.
  intros Hd. unfold DefinitionWorklist.RemoveLast. simpl.
  rewrite last_snoc. simpl. rewrite BitVector_Remove_in_range by done. simpl.
  by rewrite removelast_last.
Qed.

Lemma in_sync_Add (w : DefinitionWorklist.t) (d : DefinitionPtr) :
  ssa_indices_unique →
  DefinitionWorklist.in_sync w →
  DefinitionWorklist.covers w d →
  ∃ w', DefinitionWorklist.Add w d = Some w' ∧ DefinitionWorklist.in_sync w'.
Proof.
  intros Huniq (Huniv & Hlisted & Hiff & Hnodup) Hd.
  destruct (DefinitionWorklist.Contains w d) eqn:Hc.
  { exists w. split; [by apply Add_present | done]. }
  eexists. split; [by apply Add_absent|].
  pose proof (proj1 (covers_index w d) Hd) as Hdr.
  unfold DefinitionWorklist.in_sync, DefinitionWorklist.covers,
    DefinitionWorklist.definitions in *. simpl.
  split; [|split; [|split]].
  - unfold BitVector.in_universe in *. simpl.
    intros i [->%elem_of_singleton|Hi]%elem_of_union; [|by apply Huniv].
    by apply elem_of_universe.
  - intros d0 [Hin| ->%list_elem_of_singleton]%elem_of_app; [by apply Hlisted | done].
  - intros d0 Hd0. pose proof (proj1 (in_range_spec _ _) Hd0) as Hd0r. simpl in Hd0r.
    rewrite Contains_bit by lia. simpl.
    rewrite elem_of_union, elem_of_singleton, elem_of_app, list_elem_of_singleton.
    rewrite <- (Contains_bit w d0) by lia. rewrite (Hiff d0 Hd0).
    split.
    + intros [Heq|Hin]; [right; apply Huniq; [lia | done] | by left].
    + intros [Hin| ->]; [by right | by left].
  - apply NoDup_app. split; [done|]. split; [|apply NoDup_singleton].
    intros d0 Hd0 ->%list_elem_of_singleton.
    apply (Hiff d Hd) in Hd0. congruence.
Qed.

Lemma in_sync_RemoveLast (w : DefinitionWorklist.t) :
  ssa_indices_unique →
  DefinitionWorklist.in_sync w →
  DefinitionWorklist.definitions w ≠ [] →
  ∃ d w', DefinitionWorklist.RemoveLast w = Some (d, w') ∧
          last (DefinitionWorklist.definitions w) = Some d ∧
          DefinitionWorklist.in_sync w'.
Proof.
  intros Huniq (Huniv & Hlisted & Hiff & Hnodup) Hne.
  destruct w as [defs bits].
  unfold DefinitionWorklist.covers, DefinitionWorklist.definitions in *. simpl in *.
  destruct defs as [|d defs _] using rev_ind; [done|].
  assert (BitVector.in_range bits (ssa_temp_index d) = true) as Hd
    by (apply Hlisted; set_solver).
  exists d. eexists. split; [by apply RemoveLast_snoc|]. split; [apply last_snoc|].
  apply NoDup_app in Hnodup as (Hnd & Hdisj & _).
  unfold DefinitionWorklist.in_sync, DefinitionWorklist.covers,
    DefinitionWorklist.definitions. simpl.
  split; [|split; [|split]].
  - unfold BitVector.in_universe in *. simpl. set_solver.
  - intros d0 Hd0. apply Hlisted. set_solver.
  - intros d0 Hd0. pose proof (proj1 (in_range_spec _ _) Hd0) as Hd0r. simpl in Hd0r.
    rewrite Contains_bit by lia. simpl.
    rewrite elem_of_difference, elem_of_singleton.
    rewrite <- (Contains_bit (DefinitionWorklist.mk (defs ++ [d]) bits) d0) by lia.
    rewrite (Hiff d0 Hd0), elem_of_app, list_elem_of_singleton.
    split.
    + intros [[Hin| ->] Hneq]; [done | by destruct Hneq].
    + intros Hin. split; [by left|]. intros Heq.
      assert (d0 = d) as -> by (apply Huniq; [lia | done]).
      apply (Hdisj d Hin). by apply list_elem_of_singleton.
  - done.
Qed.

End WorklistFacts.

(** C9 (amended). In a heap where distinct definitions carry distinct
    SSA indices, the worklist operations keep the bit vector and the
    array in agreement as long as the definitions added have an index
    the bit vector has a bit for: a fresh worklist is in sync; [Add] of
    such a definition succeeds and preserves it; [RemoveLast] on a
    worklist that is in sync and not empty returns the last definition
    and preserves it; [Clear] establishes it. So for every definition [d]
    whose index has a bit, [Contains d] holds exactly when [d] is listed,
    and none is listed twice. [Add d] changes nothing when [Contains d]
    already holds. *)
Theorem DefinitionWorklist_in_sync `{DefinitionHeap} :
  ssa_indices_unique →
  (∀ g capacity, DefinitionWorklist.in_sync (DefinitionWorklist.new g capacity)) ∧
  (∀ w d, DefinitionWorklist.in_sync w →
          DefinitionWorklist.covers w d →
          ∃ w', DefinitionWorklist.Add w d = Some w' ∧
                DefinitionWorklist.in_sync w') ∧
  (∀ w, DefinitionWorklist.in_sync w →
        DefinitionWorklist.definitions w ≠ [] →
        ∃ d w', DefinitionWorklist.RemoveLast w = Some (d, w') ∧
                last (DefinitionWorklist.definitions w) = Some d ∧
                DefinitionWorklist.in_sync w') ∧
  (∀ w, DefinitionWorklist.in_sync (DefinitionWorklist.Clear w)) ∧
  (∀ w d, DefinitionWorklist.Contains w d = true →
          DefinitionWorklist.Add w d = Some w).
Proof.
  intros Huniq. split; [|split; [|split; [|split]]].
  - apply in_sync_new.
  - intros w d. by apply in_sync_Add.
  - intros w. by apply in_sync_RemoveLast.
  - apply in_sync_Clear.
  - apply Add_present.
Qed.

Lemma ssa_heap_unique : @ssa_indices_unique ssa_heap.
Proof. intros d1 d2 _. simpl. lia. Qed.

Lemma DefinitionWorklist_in_sync_witness :
  let H := ssa_heap in
  let w0 := DefinitionWorklist.new graph_after_prologue 8 in
  @ssa_indices_unique ssa_heap ∧
  ∃ w1, DefinitionWorklist.Add w0 3%nat = Some w1 ∧
        DefinitionWorklist.in_sync w1 ∧
        DefinitionWorklist.definitions w1 = [3%nat] ∧
        DefinitionWorklist.Add w1 3%nat = Some w1.
Proof.
  intros H w0. split; [exact ssa_heap_unique|].
  destruct (@DefinitionWorklist_in_sync H ssa_heap_unique) as (Hnew & Hadd & _).
  destruct (Hadd w0 3%nat (Hnew graph_after_prologue 8) eq_refl) as (w1 & Hw1 & Hsync).
  exists w1. split; [exact Hw1|]. split; [exact Hsync|].
  injection Hw1 as <-. split; reflexivity.
Defined.

(** C9 as stated fails when two definitions share an SSA index: after
    [Add] of definition 2, [Contains] answers true for definition 3, which
    is not on the list, although the worklist was in sync before and both
    indices have a bit in the vector. *)
Lemma DefinitionWorklist_shared_index :
  let H := colliding_heap in
  let w0 := DefinitionWorklist.new graph_after_prologue 8 in
  DefinitionWorklist.in_sync w0 ∧
  DefinitionWorklist.covers w0 2%nat ∧
  DefinitionWorklist.covers w0 3%nat ∧
  ∃ w1, DefinitionWorklist.Add w0 2%nat = Some w1 ∧
        DefinitionWorklist.Contains w1 3%nat = true ∧
        DefinitionWorklist.definitions w1 = [2%nat] ∧
        3%nat ∉ DefinitionWorklist.definitions w1.
Proof.
  intros H w0. split; [apply in_sync_new|].
  split; [reflexivity|]. split; [reflexivity|].
  eexists. split; [reflexivity|].
  split; [by vm_compute|]. split; [reflexivity|].
  simpl. by intros [=]%list_elem_of_singleton.
Qed.

(** ** Liveness analysis *)

Example loop_liveness :
  let H := loop_initial_sets in
  (λ a, (BitVector.data <$> Liveness.live_in_ a,
         BitVector.data <$> Liveness.live_out_ a)) <$>
    Liveness.Analyze (Liveness.new 2 loop_postorder) =
  Some ([{[0; 1]}; {[0]}; {[0]}], [{[0]}; {[0; 1]}; {[0]}]).
Proof. vm_compute. reflexivity. Qed.

Section LivenessFacts.

Import Liveness.

Implicit Types (a : Liveness.t) (b block : BlockEntryInstr).

#[local] Arguments UpdateLiveOut : simpl never.
#[local] Arguments UpdateLiveIn : simpl never.
#[local] Arguments Pass : simpl never.

Local Abbreviation LI a i := (BitVector.data (GetLiveInSetAt a i)).
Local Abbreviation LO a i := (BitVector.data (GetLiveOutSetAt a i)).

Lemma universe_size (n : Z) : size (BitVector.universe n) = Z.to_nat n.
Proof.
  unfold BitVector.universe.
  rewrite size_list_to_set by apply NoDup_seqZ. apply length_seqZ.
Qed.

Lemma AddAll_data (s from : BitVector.t) :
  BitVector.data (BitVector.AddAll s from).1 = BitVector.data s ∪ BitVector.data from.
Proof. reflexivity. Qed.

Lemma BitVector_eq (s s' : BitVector.t) :
  BitVector.length s = BitVector.length s' → BitVector.data s = BitVector.data s' → s = s'.
Proof. destruct s, s'; simpl; congruence. Qed.

Lemma AddAll_unchanged (s from : BitVector.t) :
  (BitVector.AddAll s from).2 = false →
  (BitVector.AddAll s from).1 = s ∧ BitVector.data from ⊆ BitVector.data s.
Proof.
  simpl. intros Hc%bool_decide_eq_false. apply dec_stable in Hc.
  split; [|done]. apply BitVector_eq; simpl; [done | set_solver].
Qed.

Lemma AddAll_changed (s from : BitVector.t) :
  (BitVector.AddAll s from).2 = true →
  BitVector.data s ⊂ BitVector.data (BitVector.AddAll s from).1.
Proof. simpl. intros Hc%bool_decide_eq_true. set_solver. Qed.

Lemma KillAndAdd_unchanged (s kill gen : BitVector.t) :
  (BitVector.KillAndAdd s kill gen).2 = false →
  (BitVector.KillAndAdd s kill gen).1 = s ∧
  BitVector.data gen ∖ BitVector.data kill ⊆ BitVector.data s.
Proof.
  simpl. intros Hc%bool_decide_eq_false. apply dec_stable in Hc.
  split; [|done]. apply BitVector_eq; simpl; [done | set_solver].
Qed.

Lemma KillAndAdd_changed (s kill gen : BitVector.t) :
  (BitVector.KillAndAdd s kill gen).2 = true →
  BitVector.data s ⊂ BitVector.data (BitVector.KillAndAdd s kill gen).1.
Proof. simpl. intros Hc%bool_decide_eq_true. set_solver. Qed.

(** What the loop over the successors computes. *)
Lemma AddSuccessors_spec (live_in : list BitVector.t) (succs : list nat) :
  ∀ live_out,
    let r := AddSuccessors live_in live_out succs in
    BitVector.length r.1 = BitVector.length live_out ∧
    BitVector.data r.1 =
      BitVector.data live_out ∪ ⋃ ((λ s, BitVector.data (live_in !!! s)) <$> succs) ∧
    (r.2 = false → r.1 = live_out) ∧
    (r.2 = true → BitVector.data live_out ⊂ BitVector.data r.1).
Proof.
  induction succs as [|s succs IH]; intros live_out; simpl.
  - split; [done|]. split; [set_solver|]. split; [done | discriminate].
  - specialize (IH (BitVector.AddAll live_out (live_in !!! s)).1).
    destruct (AddSuccessors live_in _ succs) as [lo2 c2] eqn:Hrest.
    simpl in IH. destruct IH as (Hlen & Hdata & Hsame & Hmore). simpl.
    split; [done|]. split; [rewrite Hdata; set_solver|]. split.
    + intros [Hc1 Hc2]%orb_false_iff.
      rewrite (Hsame Hc2). apply BitVector_eq; simpl; [done|].
      apply bool_decide_eq_false, dec_stable in Hc1. set_solver.
    + intros Hc. rewrite Hdata.
      destruct (bool_decide (¬ _ ⊆ _)) eqn:Hc1.
      * apply bool_decide_eq_true in Hc1. set_solver.
      * simpl in Hc. specialize (Hmore Hc). rewrite Hdata in Hmore. set_solver.
Qed.

Lemma lookup_total_insert_same {A} `{Inhabited A} (l : list A) (i : nat) :
  <[i := l !!! i]> l = l.
Proof.
  apply list_insert_id'. intros Hi. by apply list_lookup_lookup_total_lt.
Qed.

(** An update that reports no change leaves the analysis as it was. *)
Lemma UpdateLiveOut_unchanged a block a' :
  UpdateLiveOut a block = (a', false) →
  a' = a ∧ successors_live_in a block ⊆ LO a (postorder_number block).
Proof.
  unfold UpdateLiveOut, GetLiveOutSet, GetLiveOutSetAt.
  pose proof (AddSuccessors_spec (live_in_ a) (successors block)
                (live_out_ a !!! postorder_number block)) as (_ & Hdata & Hsame & _).
  destruct (AddSuccessors _ _ _) as [lo c]. simpl in *.
  intros [= <- ->]. specialize (Hsame eq_refl). subst lo.
  rewrite lookup_total_insert_same. split; [by destruct a|].
  unfold successors_live_in, GetLiveInSetAt. set_solver.
Qed.

Lemma UpdateLiveIn_unchanged a block a' :
  UpdateLiveIn a block = (a', false) →
  a' = a ∧
  BitVector.data (GetLiveOutSet a block) ∖ BitVector.data (GetKillSet a block) ⊆
    BitVector.data (GetLiveInSet a block).
Proof.
  unfold UpdateLiveIn.
  pose proof (KillAndAdd_unchanged (GetLiveInSet a block) (GetKillSet a block)
                (GetLiveOutSet a block)) as Hk.
  destruct (BitVector.KillAndAdd _ _ _) as [li c]. simpl in Hk.
  intros [= <- ->]. destruct (Hk eq_refl) as [-> Hsub].
  unfold GetLiveInSet, GetLiveInSetAt. rewrite lookup_total_insert_same.
  split; [by destruct a | done].
Qed.


Lemma total_size_insert (sets : list BitVector.t) (i : nat) (s : BitVector.t) :
  (i < List.length sets)%nat →
  (total_size (<[i := s]> sets) + size (BitVector.data (sets !!! i)) =
   total_size sets + size (BitVector.data s))%nat.
Proof.
  unfold total_size. revert i.
  induction sets as [|s0 sets IH]; intros i Hi; csimpl in *; [lia|].
  destruct i as [|i]; csimpl; [lia|].
  specialize (IH i ltac:(lia)). lia.
Qed.

Lemma total_size_bound (sets : list BitVector.t) (U : gset Z) :
  (∀ i, BitVector.data (sets !!! i) ⊆ U) →
  (total_size sets ≤ List.length sets * size U)%nat.
Proof.
  unfold total_size.
  induction sets as [|s0 sets IH]; intros Hall; csimpl; [lia|].
  pose proof (subseteq_size _ _ (Hall 0%nat)) as H0. simpl in H0.
  assert (∀ i, BitVector.data (sets !!! i) ⊆ U) as Hrest.
  { intros i. exact (Hall (S i)). }
  specialize (IH Hrest). lia.
Qed.

Lemma step_props_refl a : step_props a a false.
Proof.
  unfold step_props, grows.
  split; [done|]. split; [done|]. split; [done|]. split; [done|]. split; [done|].
  split; [by intros i|]. split; [done|]. split; [done|]. split; [discriminate | lia].
Qed.

Lemma step_props_trans a a1 a2 c1 c2 :
  step_props a a1 c1 → step_props a1 a2 c2 → step_props a a2 (c1 || c2).
Proof.
  intros (HV1 & Hp1 & Hk1 & Hli1 & Hlo1 & Hg1 & Hu1 & Hs1 & Hm1 & Hle1)
         (HV2 & Hp2 & Hk2 & Hli2 & Hlo2 & Hg2 & Hu2 & Hs2 & Hm2 & Hle2).
  unfold step_props.
  split; [congruence|]. split; [congruence|]. split; [congruence|].
  split; [congruence|]. split; [congruence|].
  split. { intros i. destruct (Hg1 i), (Hg2 i). split; set_solver. }
  split. { tauto. }
  split. { intros [-> ->]%orb_false_iff. rewrite (Hs2 eq_refl). by apply Hs1. }
  split; [|lia].
  intros [->| ->]%orb_true_iff; [specialize (Hm1 eq_refl) | specialize (Hm2 eq_refl)]; lia.
Qed.


(** The sets after [UpdateLiveOut]: only the live-out set of the block
    changes, by the live-in sets of its successors. *)
Lemma UpdateLiveOut_sets a block a' c :
  UpdateLiveOut a block = (a', c) →
  variable_count_ a' = variable_count_ a ∧ postorder_ a' = postorder_ a ∧
  kill_ a' = kill_ a ∧ live_in_ a' = live_in_ a ∧
  List.length (live_out_ a') = List.length (live_out_ a) ∧
  ∀ i, LO a' i =
       if decide (postorder_number block = i ∧
                  (postorder_number block < List.length (live_out_ a))%nat)
       then LO a i ∪ successors_live_in a block else LO a i.
Proof.
  unfold UpdateLiveOut, GetLiveOutSet, GetLiveOutSetAt.
  pose proof (AddSuccessors_spec (live_in_ a) (successors block)
                (live_out_ a !!! postorder_number block)) as (_ & Hdata & _).
  destruct (AddSuccessors _ _ _) as [lo c0]. cbn [fst snd] in *.
  intros [= <- <-]. cbn [variable_count_ postorder_ kill_ live_in_ live_out_].
  repeat split; [by rewrite length_insert|].
  intros i. rewrite list_lookup_total_insert.
  case_decide as Hi; [|done]. destruct Hi as [<- _]. exact Hdata.
Qed.

Lemma UpdateLiveIn_sets a block a' c :
  UpdateLiveIn a block = (a', c) →
  variable_count_ a' = variable_count_ a ∧ postorder_ a' = postorder_ a ∧
  kill_ a' = kill_ a ∧ live_out_ a' = live_out_ a ∧
  List.length (live_in_ a') = List.length (live_in_ a) ∧
  ∀ i, LI a' i =
       if decide (postorder_number block = i ∧
                  (postorder_number block < List.length (live_in_ a))%nat)
       then LI a i ∪ (LO a i ∖ BitVector.data (kill_ a !!! i)) else LI a i.
Proof.
  unfold UpdateLiveIn, GetLiveInSet, GetLiveOutSet, GetKillSet, GetLiveInSetAt,
    GetLiveOutSetAt. cbn [BitVector.KillAndAdd].
  intros [= <- <-]. cbn [variable_count_ postorder_ kill_ live_in_ live_out_].
  repeat split; [by rewrite length_insert|].
  intros i. rewrite list_lookup_total_insert.
  case_decide as Hi; [|done]. by destruct Hi as [<- _].
Qed.

Lemma successors_live_in_universe a block :
  within_universe a →
  successors_live_in a block ⊆ BitVector.universe (variable_count_ a).
Proof.
  intros Hu x (X & HX & Hx)%elem_of_union_list.
  apply list_elem_of_fmap in HX as (s & -> & _).
  destruct (Hu s) as [Hs _]. by apply Hs.
Qed.

Lemma UpdateLiveOut_step a block a' c :
  (postorder_number block < List.length (live_out_ a))%nat →
  UpdateLiveOut a block = (a', c) → step_props a a' c.
Proof.
  intros Hi Hupd.
  pose proof (UpdateLiveOut_sets a block a' c Hupd) as (HV & Hp & Hk & Hli & Hlen & Hset).
  assert (grows a a') as Hgrow.
  { intros i. unfold GetLiveInSetAt. rewrite Hli. split; [done|].
    rewrite Hset. destruct (decide _); set_solver. }
  unfold step_props.
  split; [done|]. split; [done|]. split; [done|].
  split; [by rewrite Hli|]. split; [done|]. split; [done|].
  split.
  { intros Hu i. rewrite HV. unfold GetLiveInSetAt. rewrite Hli. split; [apply Hu|].
    rewrite Hset. pose proof (successors_live_in_universe a block Hu) as Hs.
    destruct (Hu i). destruct (decide _); set_solver. }
  split. { intros ->. by apply UpdateLiveOut_unchanged in Hupd as [-> _]. }
  unfold bits_set. rewrite Hli.
  unfold UpdateLiveOut in Hupd.
  pose proof (AddSuccessors_spec (live_in_ a) (successors block)
                (GetLiveOutSet a block)) as (_ & Hdata & _ & Hmore).
  destruct (AddSuccessors _ _ _) as [lo c'] eqn:Hadd. simpl in *.
  injection Hupd as <- <-. simpl.
  pose proof (total_size_insert (live_out_ a) (postorder_number block) lo Hi) as Hsz.
  unfold GetLiveOutSet, GetLiveOutSetAt in *.
  split.
  - intros ->. specialize (Hmore eq_refl). apply subset_size in Hmore. lia.
  - assert (BitVector.data (live_out_ a !!! postorder_number block) ⊆ BitVector.data lo)
      as Hsub by (rewrite Hdata; set_solver).
    apply subseteq_size in Hsub. lia.
Qed.

Lemma UpdateLiveIn_step a block a' c :
  (postorder_number block < List.length (live_in_ a))%nat →
  UpdateLiveIn a block = (a', c) → step_props a a' c.
Proof.
  intros Hi Hupd.
  pose proof (UpdateLiveIn_sets a block a' c Hupd) as (HV & Hp & Hk & Hlo & Hlen & Hset).
  assert (grows a a') as Hgrow.
  { intros i. unfold GetLiveOutSetAt. rewrite Hlo. split; [|done].
    rewrite Hset. destruct (decide _); set_solver. }
  unfold step_props.
  split; [done|]. split; [done|]. split; [done|].
  split; [done|]. split; [by rewrite Hlo|]. split; [done|].
  split.
  { intros Hu i. rewrite HV. unfold GetLiveOutSetAt. rewrite Hlo. split; [|apply Hu].
    rewrite Hset. destruct (Hu i). unfold GetLiveOutSetAt in *.
    destruct (decide _); set_solver. }
  split. { intros ->. by apply UpdateLiveIn_unchanged in Hupd as [-> _]. }
  unfold bits_set. rewrite Hlo.
  unfold UpdateLiveIn in Hupd.
  pose proof (KillAndAdd_changed (GetLiveInSet a block) (GetKillSet a block)
                (GetLiveOutSet a block)) as Hmore.
  destruct (BitVector.KillAndAdd _ _ _) as [li c'] eqn:Hadd. simpl in *.
  injection Hupd as <- <-. simpl.
  pose proof (total_size_insert (live_in_ a) (postorder_number block) li Hi) as Hsz.
  unfold GetLiveInSet, GetLiveInSetAt in *.
  split.
  - intros ->. specialize (Hmore eq_refl). apply subset_size in Hmore. lia.
  - assert (BitVector.data (live_in_ a !!! postorder_number block) ⊆ BitVector.data li)
      as Hsub by (injection Hadd as <- _; simpl; set_solver).
    apply subseteq_size in Hsub. lia.
Qed.


Lemma UpdateBlocks_step (blocks : list BlockEntryInstr) :
  ∀ a a' c,
    allocated a →
    Forall (λ b, (postorder_number b < List.length (postorder_ a))%nat) blocks →
    UpdateBlocks a blocks = (a', c) → step_props a a' c.
Proof.
  induction blocks as [|block rest IH]; intros a a' c [Hli Hlo] Hall;
    cbn [UpdateBlocks].
  - intros [= <- <-]. apply step_props_refl.
  - apply Forall_cons in Hall as [Hblock Hrest].
    destruct (UpdateLiveOut a block) as [a1 c1] eqn:Hout; cbn [UpdateBlocks].
    destruct (UpdateLiveIn a1 block) as [a2 c2] eqn:Hin; cbn [UpdateBlocks].
    destruct (UpdateBlocks a2 rest) as [a3 c3] eqn:Hblocks; cbn [UpdateBlocks].
    intros [= <- <-].
    assert (step_props a a1 c1) as H1.
    { apply (UpdateLiveOut_step a block); [by rewrite Hlo | done]. }
    assert (step_props a1 a2 c2) as H2.
    { apply (UpdateLiveIn_step a1 block); [|done].
      unfold step_props in H1. destruct H1 as (_ & _ & _ & -> & _). by rewrite Hli. }
    pose proof (step_props_trans _ _ _ _ _ H1 H2) as H12.
    apply (step_props_trans _ _ _ _ _ H12).
    unfold step_props in H12. destruct H12 as (_ & Hp & _ & Hli' & Hlo' & _).
    apply IH; [| |done].
    + unfold allocated. rewrite Hp, Hli', Hlo'. by split.
    + by rewrite Hp.
Qed.

Lemma well_numbered_in_range (postorder : list BlockEntryInstr) :
  well_numbered postorder →
  Forall (λ b, (postorder_number b < List.length postorder)%nat) postorder.
Proof.
  intros Hwn. apply Forall_forall. intros b (i & Hi)%list_elem_of_lookup.
  destruct (Hwn i b Hi) as [-> _]. by apply lookup_lt_Some in Hi.
Qed.

Lemma Pass_step a a' c :
  well_numbered (postorder_ a) → allocated a →
  Pass a = (a', c) → step_props a a' c.
Proof.
  intros Hwn Halloc. apply UpdateBlocks_step; [done|].
  by apply well_numbered_in_range.
Qed.

Lemma UpdateBlocks_unchanged (blocks : list BlockEntryInstr) :
  ∀ a a',
    UpdateBlocks a blocks = (a', false) →
    a' = a ∧
    ∀ b, b ∈ blocks → UpdateLiveOut a b = (a, false) ∧ UpdateLiveIn a b = (a, false).
Proof.
  induction blocks as [|block rest IH]; intros a a'; cbn [UpdateBlocks].
  - intros [= <-]. split; [done|]. by intros b ?%elem_of_nil.
  - destruct (UpdateLiveOut a block) as [a1 c1] eqn:Hout; cbn [UpdateBlocks].
    destruct (UpdateLiveIn a1 block) as [a2 c2] eqn:Hin; cbn [UpdateBlocks].
    destruct (UpdateBlocks a2 rest) as [a3 c3] eqn:Hblocks; cbn [UpdateBlocks].
    intros [= <- Hc].
    apply orb_false_iff in Hc as [[-> ->]%orb_false_iff ->].
    pose proof (UpdateLiveOut_unchanged _ _ _ Hout) as [-> _].
    pose proof (UpdateLiveIn_unchanged _ _ _ Hin) as [-> _].
    destruct (IH _ _ Hblocks) as [-> Hrest].
    split; [done|]. intros b [->|Hb]%elem_of_cons; [done | by apply Hrest].
Qed.

Lemma PassN_S (k : nat) : ∀ a, PassN (S k) a = (Pass (PassN k a)).1.
Proof. induction k as [|k IH]; intros a; [done|]. simpl in *. by rewrite IH. Qed.

Lemma bits_set_bound a :
  allocated a → within_universe a →
  (bits_set a ≤ 2 * List.length (postorder_ a) * Z.to_nat (variable_count_ a))%nat.
Proof.
  intros [Hli Hlo] Hu. unfold bits_set.
  pose proof (total_size_bound (live_in_ a) (BitVector.universe (variable_count_ a))
                (λ i, proj1 (Hu i))) as H1.
  pose proof (total_size_bound (live_out_ a) (BitVector.universe (variable_count_ a))
                (λ i, proj2 (Hu i))) as H2.
  rewrite universe_size, ?Hli, ?Hlo in H1, H2. lia.
Qed.

(** Before the bits run out a pass changes nothing; [k] is the first. *)
Lemma driver_stops (d : nat) :
  ∀ a,
    well_numbered (postorder_ a) → allocated a → within_universe a →
    (2 * List.length (postorder_ a) * Z.to_nat (variable_count_ a) - bits_set a < d)%nat →
    ∃ k, (k < d)%nat ∧
         (∀ j, (j < k)%nat → (Pass (PassN j a)).2 = true) ∧
         (Pass (PassN k a)).2 = false.
Proof.
  induction d as [|d IH]; intros a Hwn Halloc Hu Hd; [lia|].
  destruct (Pass a) as [a' c] eqn:Hpass.
  pose proof (Pass_step a a' c Hwn Halloc Hpass)
    as (HV & Hp & _ & Hli & Hlo & _ & Hu' & _ & Hmore & _).
  destruct c.
  - destruct Halloc as [Hali Halo].
    assert (allocated a') as Halloc' by (split; congruence).
    pose proof (bits_set_bound a' Halloc' (Hu' Hu)) as Hbound.
    specialize (Hmore eq_refl).
    destruct (IH a') as (k & Hk & Hbefore & Hat).
    + by rewrite Hp.
    + done.
    + by apply Hu'.
    + rewrite Hp, HV in *. lia.
    + exists (S k). split; [lia|]. simpl. rewrite Hpass. simpl. split; [|done].
      intros [|j] Hj; simpl; rewrite ?Hpass; [done|]. apply Hbefore. lia.
  - exists 0%nat. split; [lia|]. simpl. rewrite Hpass. split; [lia | done].
Qed.

(** The driver returns the state of the first pass that changes nothing. *)
Lemma driver_result (fuel : nat) :
  ∀ a k,
    (∀ j, (j < k)%nat → (Pass (PassN j a)).2 = true) →
    (Pass (PassN k a)).2 = false →
    (k < fuel)%nat →
    ComputeLiveInAndLiveOutSets fuel a = Some (PassN k a).
Proof.
  induction fuel as [|fuel IH]; intros a k Hbefore Hat Hk; [lia|]. simpl.
  destruct (Pass a) as [a' c] eqn:Hpass. destruct k as [|k].
  - simpl in Hat. rewrite Hpass in Hat. simpl in Hat. subst c.
    apply UpdateBlocks_unchanged in Hpass as [-> _]. done.
  - pose proof (Hbefore 0%nat ltac:(lia)) as H0. simpl in H0.
    rewrite Hpass in H0. simpl in H0. subst c.
    simpl. rewrite Hpass. simpl.
    apply IH; [|simpl in Hat; by rewrite Hpass in Hat|lia].
    intros j Hj. specialize (Hbefore (S j) ltac:(lia)). simpl in Hbefore.
    by rewrite Hpass in Hbefore.
Qed.

Lemma PassN_invariants (k : nat) :
  ∀ a,
    well_numbered (postorder_ a) → allocated a → within_universe a →
    postorder_ (PassN k a) = postorder_ a ∧
    variable_count_ (PassN k a) = variable_count_ a ∧
    kill_ (PassN k a) = kill_ a ∧
    allocated (PassN k a) ∧ within_universe (PassN k a) ∧ grows a (PassN k a).
Proof.
  induction k as [|k IH]; intros a Hwn Halloc Hu; simpl.
  - split; [done|]. split; [done|]. split; [done|]. split; [done|]. split; [done|].
    by intros i.
  - destruct (Pass a) as [a' c] eqn:Hpass. simpl.
    pose proof (Pass_step a a' c Hwn Halloc Hpass)
      as (HV & Hp & Hk & Hli & Hlo & Hg & Hu' & _).
    destruct Halloc as [Hali Halo].
    destruct (IH a') as (Hp' & HV' & Hk' & Halloc' & Hu'' & Hg').
    + by rewrite Hp.
    + split; congruence.
    + by apply Hu'.
    + split; [congruence|]. split; [congruence|]. split; [congruence|].
      split; [done|]. split; [done|].
      intros i. destruct (Hg i), (Hg' i). split; set_solver.
Qed.


Lemma successors_live_in_mono a a' block :
  grows a a' → successors_live_in a block ⊆ successors_live_in a' block.
Proof.
  intros Hg x (X & HX & Hx)%elem_of_union_list.
  apply list_elem_of_fmap in HX as (s & -> & Hs).
  apply elem_of_union_list. exists (LI a' s). split.
  - apply list_elem_of_fmap. by exists s.
  - destruct (Hg s) as [Hli _]. by apply Hli.
Qed.

Context `{InitialSets}.

Lemma sound_UpdateLiveOut a block a' c :
  postorder_ a !! postorder_number block = Some block →
  sound a → UpdateLiveOut a block = (a', c) → sound a'.
Proof.
  intros Hblock Hs Hupd.
  pose proof (UpdateLiveOut_sets a block a' c Hupd) as (HV & Hp & Hk & Hli & Hlen & Hset).
  intros i b Hb. rewrite Hp in Hb. destruct (Hs i b Hb) as (H1 & H2 & H3 & H4).
  assert (successors_live_in a' b = successors_live_in a b) as ->.
  { unfold successors_live_in, GetLiveInSetAt. by rewrite Hli. }
  unfold GetLiveInSetAt in *. rewrite Hli, Hk, Hset.
  destruct (decide _) as [[Hi _]|_]; [|done].
  subst i. assert (b = block) as -> by congruence.
  split; [set_solver|]. split; [set_solver | done].
Qed.

Lemma sound_UpdateLiveIn a block a' c :
  postorder_ a !! postorder_number block = Some block →
  sound a → UpdateLiveIn a block = (a', c) → sound a'.
Proof.
  intros Hblock Hs Hupd.
  pose proof (UpdateLiveIn_sets a block a' c Hupd) as (HV & Hp & Hk & Hlo & Hlen & Hset).
  assert (grows a a') as Hg.
  { intros i. unfold GetLiveOutSetAt. rewrite Hlo. split; [|done].
    rewrite Hset. destruct (decide _); set_solver. }
  intros i b Hb. rewrite Hp in Hb. destruct (Hs i b Hb) as (H1 & H2 & H3 & H4).
  pose proof (successors_live_in_mono a a' b Hg) as Hmono.
  unfold GetLiveOutSetAt in *. rewrite Hlo, Hk, Hset.
  split; [set_solver|].
  destruct (decide _) as [[Hi _]|_]; set_solver.
Qed.

Lemma sound_UpdateBlocks (blocks : list BlockEntryInstr) :
  ∀ a a' c,
    Forall (λ b, postorder_ a !! postorder_number b = Some b) blocks →
    sound a → UpdateBlocks a blocks = (a', c) → sound a'.
Proof.
  induction blocks as [|block rest IH]; intros a a' c Hall Hs; cbn [UpdateBlocks].
  - by intros [= <- <-].
  - apply Forall_cons in Hall as [Hblock Hrest].
    destruct (UpdateLiveOut a block) as [a1 c1] eqn:Hout; cbn [UpdateBlocks].
    destruct (UpdateLiveIn a1 block) as [a2 c2] eqn:Hin; cbn [UpdateBlocks].
    destruct (UpdateBlocks a2 rest) as [a3 c3] eqn:Hblocks; cbn [UpdateBlocks].
    intros [= <- <-].
    pose proof (UpdateLiveOut_sets a block a1 c1 Hout) as (_ & Hp1 & _).
    pose proof (UpdateLiveIn_sets a1 block a2 c2 Hin) as (_ & Hp2 & _).
    apply (IH a2 a3 c3); [by rewrite Hp2, Hp1| |done].
    apply (sound_UpdateLiveIn a1 block a2 c2); [by rewrite Hp1| |done].
    by apply (sound_UpdateLiveOut a block a1 c1).
Qed.

Lemma well_numbered_lookup (postorder : list BlockEntryInstr) :
  well_numbered postorder →
  Forall (λ b, postorder !! postorder_number b = Some b) postorder.
Proof.
  intros Hwn. apply Forall_forall. intros b (i & Hi)%list_elem_of_lookup.
  by destruct (Hwn i b Hi) as [-> _].
Qed.

Lemma sound_PassN (k : nat) :
  ∀ a, well_numbered (postorder_ a) → allocated a → sound a → sound (PassN k a).
Proof.
  induction k as [|k IH]; intros a Hwn Halloc Hs; simpl; [done|].
  destruct (Pass a) as [a' c] eqn:Hpass. simpl.
  pose proof (Pass_step a a' c Hwn Halloc Hpass) as Hstep.
  unfold step_props in Hstep. destruct Hstep as (_ & Hp & _ & Hli & Hlo & _).
  destruct Halloc as [Hali Halo].
  apply IH; [by rewrite Hp | split; congruence |].
  apply (sound_UpdateBlocks (postorder_ a) a a' c); [|done|done].
  by apply well_numbered_lookup.
Qed.

(** The state the driver starts from. *)
Lemma initial_state (variable_count : Z) (postorder : list BlockEntryInstr) :
  (∀ b, b ∈ postorder → initial_live_in b ⊆ BitVector.universe variable_count) →
  let a1 := ComputeInitialSets (AllocateSets (new variable_count postorder)) in
  postorder_ a1 = postorder ∧ variable_count_ a1 = variable_count ∧
  allocated a1 ∧ within_universe a1 ∧ sound a1.
Proof.
  intros Hgen a1. subst a1.
  unfold ComputeInitialSets, AllocateSets, new, allocated, within_universe, sound,
    GetLiveInSetAt, GetLiveOutSetAt. cbn [variable_count_ postorder_ live_out_ kill_ live_in_].
  split; [done|]. split; [done|].
  split. { by rewrite length_fmap, length_replicate. }
  assert (∀ i, BitVector.data (replicate (List.length postorder)
            (BitVector.new variable_count) !!! i) = ∅) as Hout.
  { intros i. rewrite list_lookup_total_alt.
    destruct (_ !! i) as [s|] eqn:Hi; [|done].
    by apply lookup_replicate in Hi as [-> _]. }
  split.
  - intros i. rewrite Hout. split; [|set_solver].
    rewrite list_lookup_total_alt, list_lookup_fmap.
    destruct (postorder !! i) as [b|] eqn:Hi; simpl; [|set_solver].
    apply Hgen. by apply list_elem_of_lookup_2 in Hi.
  - intros i b Hb. rewrite Hout.
    rewrite !list_lookup_total_alt, !list_lookup_fmap, Hb. simpl.
    split; [set_solver|]. split; [set_solver|]. done.
Qed.

End LivenessFacts.

(** The driver started by [Analyze] stops at the first pass that changes
    nothing, within the bound. *)
Lemma Analyze_stops `{Liveness.InitialSets} (variable_count : Z)
    (postorder : list Liveness.BlockEntryInstr) :
  Liveness.well_numbered postorder →
  (∀ b, b ∈ postorder → Liveness.initial_live_in b ⊆ BitVector.universe variable_count) →
  let a1 := Liveness.ComputeInitialSets
              (Liveness.AllocateSets (Liveness.new variable_count postorder)) in
  ∃ k, (k < Liveness.pass_bound a1)%nat ∧
       (∀ j, (j < k)%nat → (Liveness.Pass (Liveness.PassN j a1)).2 = true) ∧
       Liveness.Pass (Liveness.PassN k a1) = (Liveness.PassN k a1, false) ∧
       ∀ fuel, (k < fuel)%nat →
         Liveness.ComputeLiveInAndLiveOutSets fuel a1 = Some (Liveness.PassN k a1).
Proof.
  intros Hwn Hgen a1.
  destruct (initial_state variable_count postorder Hgen) as (Hp & HV & Halloc & Hu & _).
  fold a1 in Hp, HV, Halloc, Hu.
  destruct (driver_stops (Liveness.pass_bound a1) a1) as (k & Hk & Hbefore & Hat);
    [by rewrite Hp | done | done | unfold Liveness.pass_bound; lia |].
  exists k. split; [done|]. split; [done|]. split.
  - destruct (Liveness.Pass (Liveness.PassN k a1)) as [r c] eqn:Hpass.
    simpl in Hat. subst c.
    by apply UpdateBlocks_unchanged in Hpass as Hr; destruct Hr as [-> _].
  - intros fuel Hfuel. by apply driver_result.
Qed.

(** C8. The liveness driver terminates for every block list and variable
    universe: each pass only adds elements to the live-in and live-out
    sets, the sets stay within the universe of [variable_count] indices
    per block, and the driver stops on the first pass in which no set
    changes, which comes within [pass_bound] passes: [Analyze] returns the
    state of that pass, and so does the driver with any larger fuel. *)
Theorem liveness_driver_terminates `{Liveness.InitialSets} (variable_count : Z)
    (postorder : list Liveness.BlockEntryInstr) :
  Liveness.well_numbered postorder →
  (∀ b, b ∈ postorder → Liveness.initial_live_in b ⊆ BitVector.universe variable_count) →
  let a0 := Liveness.new variable_count postorder in
  let a1 := Liveness.ComputeInitialSets (Liveness.AllocateSets a0) in
  (∀ j, Liveness.grows (Liveness.PassN j a1) (Liveness.PassN (S j) a1) ∧
        Liveness.within_universe (Liveness.PassN j a1) ∧
        (Liveness.bits_set (Liveness.PassN j a1) ≤
           2 * length postorder * Z.to_nat variable_count)%nat) ∧
  ∃ k, (k < Liveness.pass_bound a1)%nat ∧
       (∀ j, (j < k)%nat → (Liveness.Pass (Liveness.PassN j a1)).2 = true) ∧
       (Liveness.Pass (Liveness.PassN k a1)).2 = false ∧
       Liveness.Analyze a0 = Some (Liveness.PassN k a1) ∧
       ∀ fuel, (k < fuel)%nat →
         Liveness.ComputeLiveInAndLiveOutSets fuel a1 = Some (Liveness.PassN k a1).
Proof.
  intros Hwn Hgen a0 a1.
  destruct (initial_state variable_count postorder Hgen) as (Hp & HV & Halloc & Hu & _).
  fold a0 a1 in Hp, HV, Halloc, Hu.
  assert (Liveness.well_numbered (Liveness.postorder_ a1)) as Hwn1 by by rewrite Hp.
  split.
  - intros j.
    destruct (PassN_invariants j a1 Hwn1 Halloc Hu) as (Hpj & HVj & _ & Hallocj & Huj & _).
    split; [|split; [done|]].
    + rewrite PassN_S.
      destruct (Liveness.Pass (Liveness.PassN j a1)) as [r c] eqn:Hpass. simpl.
      assert (Liveness.step_props (Liveness.PassN j a1) r c) as Hstep.
      { apply Pass_step; [by rewrite Hpj | done | done]. }
      unfold Liveness.step_props in Hstep. tauto.
    + pose proof (bits_set_bound _ Hallocj Huj) as Hb.
      by rewrite Hpj, HVj, Hp, HV in Hb.
  - destruct (Analyze_stops variable_count postorder Hwn Hgen)
      as (k & Hk & Hbefore & Hat & Hfuel).
    fold a0 a1 in Hk, Hbefore, Hat, Hfuel.
    exists k. split; [done|]. split; [done|]. split; [by rewrite Hat|].
    split; [|done]. unfold Liveness.Analyze. fold a1. by apply Hfuel.
Qed.

Lemma loop_postorder_well_numbered : Liveness.well_numbered loop_postorder.
Proof.
  intros i b Hi. unfold loop_postorder in *.
  destruct i as [|[|[|i]]]; simpl in Hi; try discriminate;
    injection Hi as <-; simpl; (split; [done|]);
    intros s ->%list_elem_of_singleton; lia.
Qed.

Lemma loop_initial_sets_in_universe :
  ∀ b, b ∈ loop_postorder →
    @Liveness.initial_live_in loop_initial_sets b ⊆ BitVector.universe 2.
Proof.
  intros b _. simpl. case_decide; [|set_solver].
  intros x Hx. unfold BitVector.universe. apply elem_of_list_to_set, elem_of_seqZ.
  set_solver by lia.
Qed.

Lemma liveness_driver_terminates_witness :
  let H := loop_initial_sets in
  let a0 := Liveness.new 2 loop_postorder in
  let a1 := Liveness.ComputeInitialSets (Liveness.AllocateSets a0) in
  (∀ j, Liveness.grows (Liveness.PassN j a1) (Liveness.PassN (S j) a1) ∧
        Liveness.within_universe (Liveness.PassN j a1) ∧
        (Liveness.bits_set (Liveness.PassN j a1) ≤
           2 * length loop_postorder * Z.to_nat 2)%nat) ∧
  ∃ k, (k < Liveness.pass_bound a1)%nat ∧
       (∀ j, (j < k)%nat → (Liveness.Pass (Liveness.PassN j a1)).2 = true) ∧
       (Liveness.Pass (Liveness.PassN k a1)).2 = false ∧
       Liveness.Analyze a0 = Some (Liveness.PassN k a1) ∧
       ∀ fuel, (k < fuel)%nat →
         Liveness.ComputeLiveInAndLiveOutSets fuel a1 = Some (Liveness.PassN k a1).
Proof.
  intros H.
  exact (@liveness_driver_terminates H 2 loop_postorder
           loop_postorder_well_numbered loop_initial_sets_in_universe).
Defined.

(** C2. At the fixed point the driver reaches, for every block [B]:
    live_in(B) = (live_out(B) - kill(B)) + gen(B) and live_out(B) is the
    union of live_in(S) over the successors [S] of [B]; applying
    [UpdateLiveOut] or [UpdateLiveIn] to any block once more changes no
    set. *)
Theorem liveness_fixed_point `{Liveness.InitialSets} (variable_count : Z)
    (postorder : list Liveness.BlockEntryInstr) :
  Liveness.well_numbered postorder →
  (∀ b, b ∈ postorder → Liveness.initial_live_in b ⊆ BitVector.universe variable_count) →
  ∃ a, Liveness.Analyze (Liveness.new variable_count postorder) = Some a ∧
    ∀ B, B ∈ postorder →
      BitVector.data (Liveness.GetLiveInSet a B) =
        (BitVector.data (Liveness.GetLiveOutSet a B) ∖
         BitVector.data (Liveness.GetKillSet a B)) ∪ Liveness.initial_live_in B ∧
      BitVector.data (Liveness.GetLiveOutSet a B) = Liveness.successors_live_in a B ∧
      BitVector.data (Liveness.GetKillSet a B) = Liveness.initial_kill B ∧
      Liveness.UpdateLiveOut a B = (a, false) ∧
      Liveness.UpdateLiveIn a B = (a, false).
Proof.
  intros Hwn Hgen.
  destruct (initial_state variable_count postorder Hgen) as (Hp & HV & Halloc & Hu & Hs).
  destruct (Analyze_stops variable_count postorder Hwn Hgen)
    as (k & Hk & _ & Hat & Hfuel).
  set (a1 := Liveness.ComputeInitialSets _) in *.
  assert (Liveness.well_numbered (Liveness.postorder_ a1)) as Hwn1 by by rewrite Hp.
  exists (Liveness.PassN k a1). split.
  { unfold Liveness.Analyze. fold a1. by apply Hfuel. }
  destruct (PassN_invariants k a1 Hwn1 Halloc Hu) as (Hpk & _).
  pose proof (sound_PassN k a1 Hwn1 Halloc Hs) as Hsound.
  set (a := Liveness.PassN k a1) in *.
  apply UpdateBlocks_unchanged in Hat as [_ Hfix].
  intros B HB.
  destruct (Hfix B) as [Hout Hin]; [by rewrite Hpk, Hp|].
  pose proof (UpdateLiveOut_unchanged _ _ _ Hout) as [_ Hlo].
  pose proof (UpdateLiveIn_unchanged _ _ _ Hin) as [_ Hli].
  apply list_elem_of_lookup in HB as [i Hi].
  destruct (Hwn i B Hi) as [Hnum _].
  destruct (Hsound i B) as (H1 & H2 & H3 & H4); [by rewrite Hpk, Hp|].
  unfold Liveness.GetLiveInSet, Liveness.GetLiveOutSet, Liveness.GetKillSet in *.
  rewrite Hnum in *.
  unfold Liveness.GetLiveInSetAt, Liveness.GetLiveOutSetAt in *.
  split; [set_solver|]. split; [set_solver|]. done.
Qed.

Lemma liveness_fixed_point_witness :
  let H := loop_initial_sets in
  ∃ a, Liveness.Analyze (Liveness.new 2 loop_postorder) = Some a ∧
    ∀ B, B ∈ loop_postorder →
      BitVector.data (Liveness.GetLiveInSet a B) =
        (BitVector.data (Liveness.GetLiveOutSet a B) ∖
         BitVector.data (Liveness.GetKillSet a B)) ∪ Liveness.initial_live_in B ∧
      BitVector.data (Liveness.GetLiveOutSet a B) = Liveness.successors_live_in a B ∧
      BitVector.data (Liveness.GetKillSet a B) = Liveness.initial_kill B ∧
      Liveness.UpdateLiveOut a B = (a, false) ∧
      Liveness.UpdateLiveIn a B = (a, false).
Proof.
  intros H.
  exact (@liveness_fixed_point H 2 loop_postorder
           loop_postorder_well_numbered loop_initial_sets_in_universe).
Defined.

(** ** Natural loops *)

Example loop_graph_blocks :
  BitVector.data <$> Loops.FindLoopBlocks loop_graph 3%nat 1%nat = Some {[1; 2; 3]}.
Proof. vm_compute. reflexivity. Qed.

Section LoopFacts.

Import Loops.

Variable g : Graph.
Hypothesis Hwf : well_formed g.

Lemma preorder_number_at (q : BlockPtr) :
  (q < length g)%nat → preorder_number (block_at g q) = q.
Proof.
  intros Hq. unfold block_at.
  destruct (Hwf q (g !!! q)) as [Hnum _]; [|done].
  by apply list_lookup_lookup_total_lt.
Qed.

Lemma predecessor_in_range (p q : BlockPtr) :
  (p < length g)%nat → q ∈ predecessors (block_at g p) → (q < length g)%nat.
Proof.
  intros Hp Hq. unfold block_at in Hq.
  destruct (Hwf p (g !!! p)) as [_ Hpreds]; [|by apply Hpreds].
  by apply list_lookup_lookup_total_lt.
Qed.

Lemma in_universe_of_nat (x : nat) :
  (x < length g)%nat → Z.of_nat x ∈ BitVector.universe (Z.of_nat (length g)).
Proof.
  intros Hx. unfold BitVector.universe.
  apply elem_of_list_to_set, elem_of_seqZ. lia.
Qed.

Lemma path_head (x z : BlockPtr) (l : list BlockPtr) :
  path g x z l → ∃ l', l = x :: l'.
Proof. destruct 1; eauto. Qed.

Lemma path_in_range (x z : BlockPtr) (l : list BlockPtr) :
  path g x z l → (x < length g)%nat.
Proof.
  destruct 1 as [x Hx|x y z l [Hy Hxy] _]; [done|].
  by apply (predecessor_in_range y).
Qed.

(** Adding a fresh block of the universe uses up one unit of budget. *)
Lemma size_difference_fresh (U V : gset Z) (z : Z) :
  z ∈ U → z ∉ V → size (U ∖ V) = S (size (U ∖ ({[z]} ∪ V))).
Proof.
  intros HzU HzV.
  assert (U ∖ V = {[z]} ∪ U ∖ ({[z]} ∪ V)) as ->.
  { apply set_eq. intros y. destruct (decide (y = z)); set_solver. }
  rewrite size_union by set_solver. by rewrite size_singleton.
Qed.

(** A block of the graph has a bit in a vector over the preorder
    numbers. *)
Lemma block_in_range (loop_blocks : BitVector.t) (q : BlockPtr) :
  BitVector.length loop_blocks = Z.of_nat (length g) →
  (q < length g)%nat →
  BitVector.in_range loop_blocks (Z.of_nat q) = true.
Proof. intros Hlen Hq. apply in_range_spec. lia. Qed.

Lemma budget_push (stack : list BlockPtr) (loop_blocks : BitVector.t) (q : BlockPtr) :
  (q < length g)%nat → Z.of_nat q ∉ BitVector.data loop_blocks →
  search_budget g (q :: stack)
    (BitVector.mk (BitVector.length loop_blocks)
       ({[Z.of_nat q]} ∪ BitVector.data loop_blocks)) =
  search_budget g stack loop_blocks.
Proof.
  intros Hq Hfresh. unfold search_budget.
  cbn [length BitVector.data].
  rewrite (size_difference_fresh _ (BitVector.data loop_blocks) (Z.of_nat q)
             (in_universe_of_nat q Hq) Hfresh).
  lia.
Qed.

Lemma DrainStack_nil (fuel : nat) (loop_blocks : BitVector.t) :
  DrainStack fuel g [] loop_blocks = Some loop_blocks.
Proof. by destruct fuel. Qed.

Section BackEdge.

Variables m n : BlockPtr.
Hypothesis Hm : (m < length g)%nat.
Hypothesis Hn : (n < length g)%nat.

(** Expanding a block keeps the invariant and the budget. *)
Lemma VisitPredecessors_inv (p : BlockPtr) (pending : list BlockPtr) :
  ∀ stack loop_blocks,
    (p < length g)%nat → p ≠ n → reaches_avoiding g m n p →
    pending ⊆ predecessors (block_at g p) →
    search_inv g m n p pending stack loop_blocks →
    ∃ loop_blocks' stack',
      VisitPredecessors g pending loop_blocks stack = Some (loop_blocks', stack') ∧
      search_inv g m n p [] stack' loop_blocks' ∧
      search_budget g stack' loop_blocks' = search_budget g stack loop_blocks.
Proof.
  induction pending as [|q rest IH]; intros stack V Hp Hpn Hreach Hsub Hinv; simpl.
  - by exists V, stack.
  - assert (q ∈ predecessors (block_at g p)) as Hq by set_solver.
    pose proof (predecessor_in_range p q Hp Hq) as Hqr.
    rewrite (preorder_number_at q Hqr).
    destruct Hinv as (Hstack & Hsound & HmV & HnV & Hclosed & Hlen).
    unfold BitVector.Contains. case_bool_decide as Hin; simpl.
    + specialize (IH stack V Hp Hpn Hreach ltac:(set_solver)).
      apply IH. split; [done|]. split; [done|]. split; [done|]. split; [done|].
      split; [|done].
      intros x q' Hx HxV Hxn Hxs Hq'.
      destruct (Hclosed x q' Hx HxV Hxn Hxs Hq') as [?|[-> Hpend]]; [by left|].
      apply elem_of_cons in Hpend as [->|?]; [by left | by right].
    + assert (q ≠ n) as Hqn by (intros ->; done).
      rewrite (BitVector_Add_in_range V (Z.of_nat q) (block_in_range V q Hlen Hqr)).
      simpl.
      specialize (IH (q :: stack)
                    (BitVector.mk (BitVector.length V) ({[Z.of_nat q]} ∪ BitVector.data V))
                    Hp Hpn Hreach ltac:(set_solver)).
      rewrite <- (budget_push stack V q Hqr Hin).
      apply IH. simpl. split; [|split; [|split; [|split; [|split]]]].
      * intros s [->|Hs]%elem_of_cons; [set_solver|].
        destruct (Hstack s Hs) as (? & ? & ?). set_solver.
      * intros z [->%elem_of_singleton|Hz]%elem_of_union; [|by apply Hsound].
        exists q. split; [done|]. split; [done|]. right.
        destruct Hreach as (l & Hpath & Hl).
        exists (q :: l). split.
        -- apply (path_step g q p m l); [by split | done].
        -- set_solver.
      * set_solver.
      * set_solver.
      * intros x q' Hx HxV Hxn Hxs Hq'.
        apply not_elem_of_cons in Hxs as [Hxq Hxs].
        assert (Z.of_nat x ∈ BitVector.data V) as HxV' by set_solver by lia.
        destruct (Hclosed x q' Hx HxV' Hxn Hxs Hq') as [?|[-> Hpend]]; [left; set_solver|].
        apply elem_of_cons in Hpend as [->|?]; [left; set_solver | by right].
      * done.
Qed.

(** With budget for every block that may still be popped, the search
    ends, in a state that satisfies the invariant with an empty stack. *)
Lemma DrainStack_inv (fuel : nat) :
  ∀ stack loop_blocks,
    search_inv g m n n [] stack loop_blocks →
    (search_budget g stack loop_blocks ≤ fuel)%nat →
    ∃ loop_blocks', DrainStack fuel g stack loop_blocks = Some loop_blocks' ∧
                    search_inv g m n n [] [] loop_blocks'.
Proof.
  induction fuel as [|fuel IH]; intros stack V Hinv Hbudget.
  - destruct stack as [|p stack]; [by exists V|].
    unfold search_budget in Hbudget. simpl in Hbudget. lia.
  - destruct stack as [|p stack]; [by exists V|]. simpl.
    destruct Hinv as (Hstack & Hsound & HmV & HnV & Hclosed & Hlen).
    destruct (Hstack p) as (Hp & HpV & Hpn); [set_solver|].
    assert (reaches_avoiding g m n p) as Hreach.
    { destruct (Hsound _ HpV) as (x & Hx & _ & [->|Hr]); [lia|].
      by apply Nat2Z.inj in Hx as ->. }
    destruct (VisitPredecessors_inv p (predecessors (block_at g p)) stack V
                Hp Hpn Hreach ltac:(done)) as (V' & stack' & -> & Hinv' & Hbudget').
    { split; [intros s Hs; apply Hstack; set_solver|].
      split; [done|]. split; [done|]. split; [done|]. split; [|done].
      intros x q Hx HxV Hxn Hxs Hq.
      destruct (decide (x = p)) as [->|Hxp]; [by right|].
      destruct (Hclosed x q Hx HxV Hxn ltac:(set_solver) Hq) as [?|[_ []%elem_of_nil]].
      by left. }
    simpl. apply IH.
    + destruct Hinv' as (Hstack' & Hsound' & HmV' & HnV' & Hclosed' & Hlen').
      split; [done|]. split; [done|]. split; [done|]. split; [done|]. split; [|done].
      intros x q Hx HxV Hxn Hxs Hq.
      destruct (Hclosed' x q Hx HxV Hxn Hxs Hq) as [?|[_ []%elem_of_nil]]. by left.
    + unfold search_budget in *. simpl in *. lia.
Qed.

(** A set that holds m and, with every block other than n, the
    predecessors of that block, holds every block that reaches m
    avoiding n. *)
Lemma closed_contains (loop_blocks : BitVector.t) :
  Z.of_nat m ∈ BitVector.data loop_blocks →
  (∀ y q, (y < length g)%nat → Z.of_nat y ∈ BitVector.data loop_blocks → y ≠ n →
          q ∈ predecessors (block_at g y) → Z.of_nat q ∈ BitVector.data loop_blocks) →
  ∀ x z l, path g x z l → z = m → n ∉ l → Z.of_nat x ∈ BitVector.data loop_blocks.
Proof.
  intros HmV Hclosed x z l Hpath.
  induction Hpath as [x Hx|x y z l Hedge Hpath IH]; intros Hz Hl; [by subst x|].
  apply not_elem_of_cons in Hl as [Hxn Hl].
  specialize (IH Hz Hl).
  destruct (path_head _ _ _ Hpath) as [l' ->].
  apply not_elem_of_cons in Hl as [Hyn _].
  destruct Hedge as [Hy Hxy].
  by apply (Hclosed y x).
Qed.

(** What the search returns, without any assumption on dominance. *)
Lemma FindLoopBlocks_reaches :
  ∃ loop_blocks,
    FindLoopBlocks g m n = Some loop_blocks ∧
    BitVector.length loop_blocks = Z.of_nat (length g) ∧
    (∀ z, z ∈ BitVector.data loop_blocks → ∃ x, z = Z.of_nat x ∧ (x < length g)%nat) ∧
    ∀ x, Z.of_nat x ∈ BitVector.data loop_blocks ↔ x = n ∨ reaches_avoiding g m n x.
Proof.
  assert (∃ V, FindLoopBlocks g m n = Some V ∧ search_inv g m n n [] [] V)
    as (V & Hfind & Hinv).
  { unfold FindLoopBlocks.
    rewrite (preorder_number_at n Hn), (preorder_number_at m Hm).
    pose proof (in_universe_of_nat n Hn) as HnU.
    rewrite BitVector_Add_in_range by (by apply block_in_range).
    cbn [mbind option_bind].
    case_decide as Hnm.
    - rewrite BitVector_Add_in_range by (by apply block_in_range).
      cbn [mbind option_bind].
      apply DrainStack_inv.
      + simpl. split; [|split; [|split; [|split; [|split]]]].
        * intros s ->%list_elem_of_singleton. split; [done|]. split; [set_solver | done].
        * intros z [->%elem_of_singleton|[->%elem_of_singleton|[]%elem_of_empty]%elem_of_union]%elem_of_union.
          -- exists m. split; [done|]. split; [done|]. right.
             exists [m]. split; [by apply path_end|].
             by intros ->%list_elem_of_singleton.
          -- exists n. split; [done|]. split; [done|]. by left.
        * set_solver.
        * set_solver.
        * intros x q Hx HxV Hxn Hxs Hq. exfalso.
          apply Hxs, list_elem_of_singleton.
          assert (Z.of_nat x = Z.of_nat m ∨ Z.of_nat x = Z.of_nat n) as [?|?]
            by set_solver; lia.
        * done.
      + unfold search_budget, BitVector.new.
        cbn [length BitVector.data].
        pose proof (universe_size (Z.of_nat (length g))) as Hsize.
        rewrite Nat2Z.id in Hsize.
        assert (size (BitVector.universe (Z.of_nat (length g)) ∖
                      ({[Z.of_nat m]} ∪ ({[Z.of_nat n]} ∪ ∅))) <
                size (BitVector.universe (Z.of_nat (length g))))%nat as Hlt.
        { apply subset_size. set_solver. }
        lia.
    - assert (n = m) as Hnm' by (destruct (decide (n = m)); [done | by destruct Hnm]).
      rewrite <- Hnm'.
      eexists. split; [apply DrainStack_nil|].
      simpl. split; [by intros s ?%elem_of_nil|]. split.
      { intros z Hz. exists n. split; [set_solver|]. split; [done | by left]. }
      split; [set_solver|]. split; [set_solver|]. split; [|done].
      intros x q Hx HxV Hxn. exfalso.
      assert (Z.of_nat x = Z.of_nat n) by set_solver. lia. }
  destruct Hinv as (_ & Hsound & HmV & HnV & Hclosed & Hlen).
  exists V. split; [done|]. split; [done|]. split.
  { intros z Hz. destruct (Hsound z Hz) as (x & ? & ? & _). eauto. }
  intros x. split.
  - intros Hx. destruct (Hsound _ Hx) as (x' & Heq & _ & Hr).
    by apply Nat2Z.inj in Heq as <-.
  - intros [->|(l & Hpath & Hl)]; [done|].
    apply (closed_contains V HmV) with (z := m) (l := l); [|done|done|done].
    intros y q Hy HyV Hyn Hq.
    destruct (Hclosed y q Hy HyV Hyn ltac:(by intros ?%elem_of_nil) Hq)
      as [?|[_ []%elem_of_nil]].
    done.
Qed.

(** On a path to m that meets n, the part after the last visit of n is a
    path from n to m that does not come back to n. *)
Lemma path_after_last_visit (x z : BlockPtr) (l : list BlockPtr) :
  path g x z l → z = m → n ∈ l → in_natural_loop g m n n.
Proof.
  induction 1 as [x Hx|x y z l Hedge Hpath IH]; intros Hz Hin.
  - apply list_elem_of_singleton in Hin as Hnx. rewrite <- Hz, <- Hnx.
    exists [n]. split; [apply path_end; by rewrite Hnx | by intros ?%elem_of_nil].
  - destruct (decide (n ∈ l)) as [Hl|Hl]; [by apply IH|].
    apply elem_of_cons in Hin as [Hnx|?]; [|done].
    exists (x :: l). split; [|done].
    rewrite <- Hz, Hnx. by apply (path_step g x y z l).
Qed.

End BackEdge.

End LoopFacts.

(** C3. For a back edge from M to N where N dominates M (M being
    reachable from the entry, as every block in preorder is),
    [FindLoopBlocks M N] returns a bit vector over the preorder numbers
    that contains exactly the blocks from which M is reachable along
    paths that do not pass through N, and it contains both M and N. *)
Theorem FindLoopBlocks_natural_loop (g : Loops.Graph) (M N : Loops.BlockPtr) :
  Loops.well_formed g →
  Loops.edge g M N →
  Loops.reachable g M →
  Loops.dominates g N M →
  ∃ loop_blocks,
    Loops.FindLoopBlocks g M N = Some loop_blocks ∧
    BitVector.in_universe loop_blocks ∧
    (∀ x, (x < length g)%nat →
       BitVector.Contains loop_blocks
         (Z.of_nat (Loops.preorder_number (Loops.block_at g x))) = true ↔
       Loops.in_natural_loop g M N x) ∧
    BitVector.Contains loop_blocks
      (Z.of_nat (Loops.preorder_number (Loops.block_at g M))) = true ∧
    BitVector.Contains loop_blocks
      (Z.of_nat (Loops.preorder_number (Loops.block_at g N))) = true.
Proof.
  intros Hwf [HN HMN] [l0 Hreach] Hdom.
  pose proof (predecessor_in_range g Hwf N M HN HMN) as HM.
  destruct (FindLoopBlocks_reaches g Hwf M N HM HN) as (V & Hfind & Hlen & Hrange & Hiff).
  assert (∀ x, (x < length g)%nat →
            Z.of_nat x ∈ BitVector.data V ↔ Loops.in_natural_loop g M N x) as Hloop.
  { intros x Hx. rewrite Hiff. split.
    - intros [->|(l & Hpath & Hl)].
      + apply (path_after_last_visit g M N _ _ _ Hreach eq_refl), Hdom, Hreach.
      + exists l. split; [done|]. destruct l; set_solver.
    - intros (l & Hpath & Hl).
      destruct (decide (x = N)) as [->|Hne]; [by left|]. right.
      exists l. split; [done|].
      destruct (path_head g _ _ _ Hpath) as [l' ->]. set_solver. }
  exists V. split; [done|]. split.
  { unfold BitVector.in_universe. rewrite Hlen. intros z Hz.
    destruct (Hrange z Hz) as (x & -> & Hx). by apply in_universe_of_nat. }
  unfold BitVector.Contains. split; [|split].
  - intros x Hx. rewrite (preorder_number_at g Hwf x Hx), bool_decide_eq_true.
    by apply Hloop.
  - rewrite (preorder_number_at g Hwf M HM), bool_decide_eq_true.
    apply Hiff. destruct (decide (M = N)) as [->|Hne]; [by left|]. right.
    exists [M]. split; [by apply Loops.path_end|].
    by intros ->%list_elem_of_singleton.
  - rewrite (preorder_number_at g Hwf N HN), bool_decide_eq_true.
    apply Hiff. by left.
Qed.

Lemma loop_graph_well_formed : Loops.well_formed loop_graph.
Proof.
  intros i b Hi. unfold loop_graph in *.
  destruct i as [|[|[|[|[|i]]]]]; simpl in Hi; try discriminate;
    injection Hi as <-; simpl; (split; [done|]); intros q Hq;
    repeat (apply elem_of_cons in Hq as [->|Hq]; [lia|]);
    by apply elem_of_nil in Hq.
Qed.

Lemma loop_graph_back_edge : Loops.edge loop_graph 3%nat 1%nat.
Proof. split; [simpl; lia | simpl; set_solver]. Qed.

Lemma loop_graph_latch_reachable : Loops.reachable loop_graph 3%nat.
Proof.
  exists [0; 1; 2; 3]%nat.
  apply (Loops.path_step _ 0 1 3)%nat; [split; [simpl; lia | simpl; set_solver]|].
  apply (Loops.path_step _ 1 2 3)%nat; [split; [simpl; lia | simpl; set_solver]|].
  apply (Loops.path_step _ 2 3 3)%nat; [split; [simpl; lia | simpl; set_solver]|].
  apply Loops.path_end. simpl. lia.
Qed.

Lemma loop_graph_header_dominates : Loops.dominates loop_graph 1%nat 3%nat.
Proof.
  intros l Hpath. inversion Hpath as [|x y z l' [Hy Hedge] Hrest]; subst.
  assert (y = 1%nat) as ->.
  { unfold loop_graph in *. simpl in Hy.
    destruct y as [|[|[|[|[|y]]]]]; simpl in Hedge; [| | | | |lia];
      set_solver. }
  destruct (path_head loop_graph _ _ _ Hrest) as [l'' ->]. set_solver.
Qed.

Lemma FindLoopBlocks_natural_loop_witness :
  ∃ loop_blocks,
    Loops.FindLoopBlocks loop_graph 3%nat 1%nat = Some loop_blocks ∧
    BitVector.in_universe loop_blocks ∧
    (∀ x, (x < length loop_graph)%nat →
       BitVector.Contains loop_blocks
         (Z.of_nat (Loops.preorder_number (Loops.block_at loop_graph x))) = true ↔
       Loops.in_natural_loop loop_graph 3%nat 1%nat x) ∧
    BitVector.Contains loop_blocks
      (Z.of_nat (Loops.preorder_number (Loops.block_at loop_graph 3%nat))) = true ∧
    BitVector.Contains loop_blocks
      (Z.of_nat (Loops.preorder_number (Loops.block_at loop_graph 1%nat))) = true.
Proof.
  exact (FindLoopBlocks_natural_loop loop_graph 3%nat 1%nat
           loop_graph_well_formed loop_graph_back_edge
           loop_graph_latch_reachable loop_graph_header_dominates).
Defined.

(** ** Redefinitions *)

Example checked_block_redefinition :
  (λ r, (Redefinition.blocks r.1, r.2)) <$>
    Redefinition.EnsureRedefinition checked_block 2%nat 1%nat
      (Redefinition.mkCompileType false 7) =
  Some ([[Redefinition.mkInstr 0%nat Redefinition.kOther [];
          Redefinition.mkInstr 1%nat Redefinition.kOther [];
          Redefinition.mkInstr 2%nat Redefinition.kOther [1%nat];
          Redefinition.mkInstr 5%nat
            (Redefinition.kRedefinition (Redefinition.mkCompileType false 7)) [1%nat];
          Redefinition.mkInstr 3%nat Redefinition.kOther [5%nat];
          Redefinition.mkInstr 4%nat Redefinition.kOther [5%nat; 3%nat]]],
        Some (Redefinition.mkInstr 5%nat
                (Redefinition.kRedefinition (Redefinition.mkCompileType false 7))
                [1%nat])).
Proof. vm_compute. reflexivity. Qed.

(** The second call finds the redefinition and leaves the graph alone. *)
Example checked_block_second_call :
  (g1 ← fst <$> Redefinition.EnsureRedefinition checked_block 2%nat 1%nat
                  (Redefinition.mkCompileType false 7);
   (λ r, (bool_decide (Redefinition.blocks r.1 = Redefinition.blocks g1), r.2)) <$>
     Redefinition.EnsureRedefinition g1 2%nat 1%nat
       (Redefinition.mkCompileType false 7)) =
  Some (true, None).
Proof. vm_compute. reflexivity. Qed.

Section RedefinitionFacts.

Import Redefinition.

Implicit Types (g : Graph) (bs : list (list Instruction)) (block : list Instruction)
  (u v : Instruction) (p : Position).

Lemma index_of_Some (id : InstrPtr) block (k : nat) :
  index_of id block = Some k ↔
  ∃ u, block !! k = Some u ∧ instr_id u = id ∧
       ∀ j v, block !! j = Some v → (j < k)%nat → instr_id v ≠ id.
Proof.
  unfold index_of. split.
  - destruct (list_find _ block) as [[i u]|] eqn:Hfind; simpl; [|done].
    intros [= <-]. apply list_find_Some in Hfind as (? & ? & ?). by exists u.
  - intros (u & Hu & Hid & Hbefore).
    by rewrite (proj2 (list_find_Some (λ u, instr_id u = id) block k u)).
Qed.

Lemma index_of_None (id : InstrPtr) block :
  index_of id block = None ↔ ∀ v, v ∈ block → instr_id v ≠ id.
Proof.
  unfold index_of. rewrite fmap_None, list_find_None, Forall_forall. done.
Qed.

(** [locate_in] finds the first place, and only that. *)
Lemma locate_in_spec (id : InstrPtr) bs p :
  locate_in id bs = Some p ↔ first_at bs id p.
Proof.
  revert p. induction bs as [|block bs IH]; intros [b k]; simpl.
  - split; [done|]. by intros (? & ? & ? & _).
  - destruct (index_of id block) as [k0|] eqn:Hidx.
    + apply index_of_Some in Hidx as (u & Hu & Hid & Hbefore). split.
      * intros [= <- <-]. exists block, u. simpl.
        split; [done|]. split; [done|]. split; [done|]. split; [done|]. lia.
      * intros (block' & u' & Hb & Hk & Hid' & Hbefore' & Hblocks). simpl in *.
        destruct b as [|b].
        -- injection Hb as <-.
           destruct (Nat.lt_trichotomy k k0) as [Hlt|[->|Hlt]]; [|done|].
           ++ by destruct (Hbefore k u' Hk Hlt).
           ++ by destruct (Hbefore' k0 u Hu Hlt).
        -- destruct (Hblocks 0%nat block u eq_refl ltac:(lia)); [|done].
           by apply list_elem_of_lookup_2 in Hu.
    + pose proof (proj1 (index_of_None id block) Hidx) as Hnone. split.
      * destruct (locate_in id bs) as [[b' k']|] eqn:Hloc; simpl; [|done].
        intros [= <- <-].
        destruct (proj1 (IH (b', k')) eq_refl)
          as (block' & u & Hb & Hk & Hid & Hbefore & Hblocks).
        simpl in *. exists block', u.
        split; [done|]. split; [done|]. split; [done|]. split; [done|].
        intros [|b0] block0 v Hb0 Hlt Hv; simpl in Hb0, Hlt.
        -- injection Hb0 as <-. by apply Hnone.
        -- apply (Hblocks b0 block0 v Hb0); [lia | done].
      * intros (block' & u & Hb & Hk & Hid & Hbefore & Hblocks). simpl in *.
        destruct b as [|b].
        -- injection Hb as <-. destruct (Hnone u); [|done].
           by apply list_elem_of_lookup_2 in Hk.
        -- rewrite (proj2 (IH (b, k))); [done|].
           exists block', u. simpl.
           split; [done|]. split; [done|]. split; [done|]. split; [done|].
           intros b0 block0 v Hb0 Hlt Hv.
           apply (Hblocks (S b0) block0 v); [done | lia | done].
Qed.

Lemma first_at_instr bs (id : InstrPtr) p :
  first_at bs id p → ∃ u, instr_at bs p = Some u ∧ instr_id u = id.
Proof.
  intros (block & u & Hb & Hk & Hid & _). exists u.
  unfold instr_at. rewrite Hb. simpl. done.
Qed.

(** Linking an instruction in behind [prev] does not move [prev]. *)
Lemma first_at_insert_prev bs (prev : InstrPtr) p (instr : Instruction) :
  first_at bs prev p →
  first_at (alter (insert_at p.2 instr) p.1 bs) prev p.
Proof.
  intros (block & u & Hb & Hk & Hid & Hbefore & Hblocks).
  pose proof (lookup_lt_Some _ _ _ Hk) as Hlen.
  exists (insert_at p.2 instr block), u.
  split. { by rewrite list_lookup_alter_eq, Hb. }
  assert (∀ j, (j ≤ p.2)%nat → insert_at p.2 instr block !! j = block !! j) as Hsame.
  { intros j Hj. unfold insert_at.
    rewrite lookup_app_l by (rewrite length_take; lia).
    rewrite lookup_take_lt by lia. done. }
  split; [by rewrite Hsame|]. split; [done|]. split.
  - intros j v Hj Hlt. rewrite Hsame in Hj by lia. by apply (Hbefore j).
  - intros b block' v Hb' Hlt. rewrite list_lookup_alter_ne in Hb' by lia.
    by apply (Hblocks b).
Qed.

(** The instruction linked in stands right behind [prev], and, being
    new, nowhere before. *)
Lemma first_at_insert_new bs (prev : InstrPtr) p (instr : Instruction) :
  first_at bs prev p →
  (∀ block v, block ∈ bs → v ∈ block → instr_id v ≠ instr_id instr) →
  first_at (alter (insert_at p.2 instr) p.1 bs) (instr_id instr) (p.1, S p.2).
Proof.
  intros (block & u & Hb & Hk & Hid & Hbefore & Hblocks) Hfresh.
  pose proof (lookup_lt_Some _ _ _ Hk) as Hlen.
  exists (insert_at p.2 instr block), instr. simpl.
  split. { by rewrite list_lookup_alter_eq, Hb. }
  split.
  { unfold insert_at. rewrite lookup_app_r by (rewrite length_take; lia).
    rewrite length_take. by replace (S p.2 - S p.2 `min` length block)%nat with 0%nat by lia. }
  split; [done|]. split.
  - intros j v Hj Hlt. unfold insert_at in Hj.
    rewrite lookup_app_l in Hj by (rewrite length_take; lia).
    rewrite lookup_take_lt in Hj by lia.
    apply (Hfresh block v); [by apply list_elem_of_lookup_2 in Hb|].
    by apply list_elem_of_lookup_2 in Hj.
  - intros b block' v Hb' Hlt Hv. rewrite list_lookup_alter_ne in Hb' by lia.
    apply (Hfresh block' v); [by apply list_elem_of_lookup_2 in Hb' | done].
Qed.

(** Renaming inputs moves no instruction. *)
Lemma first_at_imap bs (f : nat → nat → Instruction → Instruction) (id : InstrPtr) p :
  (∀ b k u, instr_id (f b k u) = instr_id u) →
  first_at bs id p →
  first_at (imap (λ b block, imap (f b) block) bs) id p.
Proof.
  intros Hf (block & u & Hb & Hk & Hid & Hbefore & Hblocks).
  exists (imap (f p.1) block), (f p.1 p.2 u).
  split. { by rewrite list_lookup_imap, Hb. }
  split. { by rewrite list_lookup_imap, Hk. }
  split. { by rewrite Hf. }
  split.
  - intros j v Hj Hlt. rewrite list_lookup_imap in Hj.
    destruct (block !! j) as [v0|] eqn:Hv0; simpl in Hj; [|done].
    injection Hj as <-. rewrite Hf. by apply (Hbefore j).
  - intros b block' v Hb' Hlt Hv. rewrite list_lookup_imap in Hb'.
    destruct (bs !! b) as [block0|] eqn:Hb0; simpl in Hb'; [|done].
    injection Hb' as <-.
    apply list_elem_of_lookup in Hv as [k Hv]. rewrite list_lookup_imap in Hv.
    destruct (block0 !! k) as [v0|] eqn:Hv0; simpl in Hv; [|done].
    injection Hv as <-. rewrite Hf.
    apply (Hblocks b block0 v0 Hb0 Hlt). by apply list_elem_of_lookup_2 in Hv0.
Qed.

Lemma instr_at_insert bs (prev : InstrPtr) p (instr : Instruction) :
  first_at bs prev p →
  instr_at (alter (insert_at p.2 instr) p.1 bs) (p.1, S p.2) = Some instr.
Proof.
  intros (block & u & Hb & Hk & _).
  pose proof (lookup_lt_Some _ _ _ Hk) as Hlen.
  unfold instr_at. simpl. rewrite list_lookup_alter_eq, Hb. simpl.
  unfold insert_at. rewrite lookup_app_r by (rewrite length_take; lia).
  rewrite length_take. by replace (S p.2 - S p.2 `min` length block)%nat with 0%nat by lia.
Qed.

Lemma instr_at_imap bs (f : nat → nat → Instruction → Instruction) p :
  instr_at (imap (λ b block, imap (f b) block) bs) p = f p.1 p.2 <$> instr_at bs p.
Proof.
  unfold instr_at. rewrite list_lookup_imap.
  destruct (bs !! p.1) as [block|]; simpl; [|done].
  by rewrite list_lookup_imap.
Qed.

Lemma dominated_by_self g p : dominated_by g p p = false.
Proof.
  unfold dominated_by. rewrite decide_True by done.
  apply bool_decide_eq_false. lia.
Qed.

Lemma is_equivalent_new (id original : InstrPtr) (compile_type : CompileType) :
  is_equivalent (mkInstr id (kRedefinition compile_type) [original])
    original compile_type = true.
Proof. unfold is_equivalent. simpl. by rewrite !bool_decide_eq_true_2. Qed.

(** After a redefinition was inserted behind [prev], it is what follows
    [prev], with its input and its type as they were when it was
    created. *)
Lemma next_after_insertion g (prev original : InstrPtr) (compile_type : CompileType)
    (first : Instruction) :
  well_formed g →
  next g prev = Some first →
  let redef := mkInstr (next_instr_id g) (kRedefinition compile_type) [original] in
  let g1 := InsertAfter (allocate g).2 prev redef in
  let g2 := RenameDominatedUses g1 original (instr_id redef) (instr_id redef) in
  next g2 prev = Some redef.
Proof.
  intros Hwf Hnext redef g1 g2.
  unfold next in Hnext.
  destruct (locate g prev) as [p|] eqn:Hloc; simpl in Hnext; [|done].
  pose proof (proj1 (locate_in_spec prev (blocks g) p) Hloc) as Hprev.
  assert (blocks g1 = alter (insert_at p.2 redef) p.1 (blocks g)) as Hblocks1.
  { subst g1. unfold InsertAfter, locate, allocate. simpl.
    unfold locate in Hloc. by rewrite Hloc. }
  assert (first_at (blocks g1) prev p) as Hprev1.
  { rewrite Hblocks1. by apply first_at_insert_prev. }
  assert (first_at (blocks g1) (instr_id redef) (p.1, S p.2)) as Hnew1.
  { rewrite Hblocks1. apply (first_at_insert_new _ prev); [done|].
    intros block v Hblock Hv. specialize (Hwf block v Hblock Hv). simpl. lia. }
  assert (instr_at (blocks g1) (p.1, S p.2) = Some redef) as Hat1.
  { rewrite Hblocks1. by apply (instr_at_insert _ prev). }
  set (f := λ (b k : nat) u,
              if dominated_by g1 (p.1, S p.2) (b, k)
              then rename_inputs original (instr_id redef) u else u).
  assert (blocks g2 = imap (λ b block, imap (f b) block) (blocks g1)) as Hblocks2.
  { subst g2. unfold RenameDominatedUses, locate.
    by rewrite (proj2 (locate_in_spec _ _ _) Hnew1). }
  assert (first_at (blocks g2) prev p) as Hprev2.
  { rewrite Hblocks2. apply first_at_imap; [|done].
    intros b k u. unfold f. by destruct (dominated_by _ _ _). }
  unfold next, locate. rewrite (proj2 (locate_in_spec _ _ _) Hprev2). simpl.
  rewrite Hblocks2, instr_at_imap, Hat1. simpl.
  unfold f. by rewrite dominated_by_self.
Qed.

End RedefinitionFacts.

(** C4. [EnsureRedefinition] is idempotent: when an equivalent
    redefinition of [original] already follows [prev], the call leaves the
    graph as it is and returns no redefinition; and after any call that
    went through, a second call with the same arguments inserts nothing,
    so that the graph after two calls is the graph after one. *)
Theorem EnsureRedefinition_idempotent (g : Redefinition.Graph)
    (prev original : Redefinition.InstrPtr) (compile_type : Redefinition.CompileType) :
  Redefinition.well_formed g →
  (∀ first,
     Redefinition.next g prev = Some first →
     Redefinition.is_equivalent first original compile_type = true →
     Redefinition.EnsureRedefinition g prev original compile_type = Some (g, None)) ∧
  (∀ g1 r1,
     Redefinition.EnsureRedefinition g prev original compile_type = Some (g1, r1) →
     Redefinition.EnsureRedefinition g1 prev original compile_type = Some (g1, None)).
Proof.
  intros Hwf. split.
  - intros first Hnext Heq. unfold Redefinition.EnsureRedefinition.
    rewrite Hnext. simpl. by rewrite Heq.
  - intros g1 r1. unfold Redefinition.EnsureRedefinition at 1.
    destruct (Redefinition.next g prev) as [first|] eqn:Hnext; simpl; [|done].
    destruct (Redefinition.is_equivalent first original compile_type) eqn:Heq.
    + intros [= <- <-]. unfold Redefinition.EnsureRedefinition.
      rewrite Hnext. simpl. by rewrite Heq.
    + intros [= <- <-]. unfold Redefinition.EnsureRedefinition at 1.
      pose proof (next_after_insertion g prev original compile_type first Hwf Hnext)
        as Hnext2.
      simpl in Hnext2. rewrite Hnext2.
      simpl. by rewrite is_equivalent_new.
Qed.

Lemma checked_block_well_formed : Redefinition.well_formed checked_block.
Proof.
  intros block u Hblock Hu. simpl in *.
  apply list_elem_of_singleton in Hblock as ->.
  repeat (apply elem_of_cons in Hu as [->|Hu]; [simpl; lia|]).
  by apply elem_of_nil in Hu.
Qed.

Lemma EnsureRedefinition_idempotent_witness :
  (∀ first,
     Redefinition.next checked_block 2%nat = Some first →
     Redefinition.is_equivalent first 1%nat (Redefinition.mkCompileType false 7) = true →
     Redefinition.EnsureRedefinition checked_block 2%nat 1%nat
       (Redefinition.mkCompileType false 7) = Some (checked_block, None)) ∧
  (∀ g1 r1,
     Redefinition.EnsureRedefinition checked_block 2%nat 1%nat
       (Redefinition.mkCompileType false 7) = Some (g1, r1) →
     Redefinition.EnsureRedefinition g1 2%nat 1%nat
       (Redefinition.mkCompileType false 7) = Some (g1, None)).
Proof.
  exact (EnsureRedefinition_idempotent checked_block 2%nat 1%nat
           (Redefinition.mkCompileType false 7) checked_block_well_formed).
Defined.

(** ** Further properties of the header's functions *)

Lemma wrap_intptr_small (z : Z) :
  - 2 ^ 63 ≤ z < 2 ^ 63 → wrap_intptr z = z.
Proof.
  intros Hz. unfold wrap_intptr, kBitsPerWord. simpl.
  rewrite Z.mod_small; lia.
Qed.

Lemma BlockIterator_current (order : list BlockIterator.BlockPtr) (k : nat) :
  Z.of_nat (length order) < 2 ^ 63 →
  (k ≤ length order)%nat →
  Nat.iter k BlockIterator.Advance (BlockIterator.new order) =
    BlockIterator.mk order (Z.of_nat k).
Proof.
  intros Hlen. induction k as [|k IH]; intros Hk; [done|].
  simpl. rewrite IH by lia. unfold BlockIterator.Advance. simpl.
  rewrite wrap_intptr_small by lia. f_equal. lia.
Qed.

(** A [BlockIterator] started on a block order and advanced [k] times
    stands at the [k]-th block, and it is done exactly when [k] is the
    length of the order: the loop [for (it = ...; !it.Done();
    it.Advance())] visits every block once, in order. *)
Theorem BlockIterator_visits_in_order (order : list BlockIterator.BlockPtr) (k : nat) :
  Z.of_nat (length order) < 2 ^ 63 →
  (k ≤ length order)%nat →
  let it := Nat.iter k BlockIterator.Advance (BlockIterator.new order) in
  BlockIterator.Done it = bool_decide (k = length order) ∧
  BlockIterator.Current it = order !! k.
Proof.
  intros Hlen Hk it. subst it. rewrite BlockIterator_current by done.
  unfold BlockIterator.Done, BlockIterator.Current. simpl. split.
  - case_bool_decide; [apply Z.leb_le | apply Z.leb_gt]; lia.
  - destruct (Z.leb_spec 0 (Z.of_nat k)); [|lia]. by rewrite Nat2Z.id.
Qed.

Lemma BlockIterator_visits_in_order_witness :
  let it := Nat.iter 2 BlockIterator.Advance (BlockIterator.new [7; 5; 3]%nat) in
  BlockIterator.Done it = bool_decide (2%nat = length [7; 5; 3]%nat) ∧
  BlockIterator.Current it = [7; 5; 3]%nat !! 2%nat.
Proof.
  apply (BlockIterator_visits_in_order [7; 5; 3]%nat 2); [by vm_compute | simpl; lia].
Defined.

(** [ConstantPoolTrait::IsKeyEqual] accepts a key exactly when the entry's
    value and the key's constant are the same pointer and the
    representations are equal; every entry answers the key [KeyOf] makes
    of it. *)
Theorem IsKeyEqual_pointer_and_representation `{ObjectModel}
    (kv : ConstantInstr) (key : ConstantAndRepresentation.t) :
  (ConstantPoolTrait.IsKeyEqual kv key = true ↔
     ptr (value kv) = ptr (ConstantAndRepresentation.constant key) ∧
     representation kv = ConstantAndRepresentation.representation key) ∧
  ConstantPoolTrait.IsKeyEqual kv (ConstantPoolTrait.KeyOf kv) = true.
Proof.
  unfold ConstantPoolTrait.IsKeyEqual, ConstantPoolTrait.KeyOf. split.
  - rewrite andb_true_iff, !bool_decide_eq_true. reflexivity.
  - simpl. by rewrite !bool_decide_eq_true_2.
Qed.

(** The worklist is a stack: a definition whose SSA index has a bit in
    the vector and that is not on the worklist is, once added, the one
    [RemoveLast] returns, and the worklist is then what it was before
    the [Add]. *)
Theorem DefinitionWorklist_Add_RemoveLast `{DefinitionHeap}
    (w : DefinitionWorklist.t) (d : DefinitionPtr) :
  DefinitionWorklist.covers w d →
  DefinitionWorklist.Contains w d = false →
  ∃ w1, DefinitionWorklist.Add w d = Some w1 ∧
        DefinitionWorklist.RemoveLast w1 = Some (d, w).
Proof.
  intros Hd Hc. eexists. split; [by apply Add_absent|].
  rewrite RemoveLast_snoc by exact Hd.
  pose proof (proj1 (covers_index w d) Hd) as Hdr.
  assert (ssa_temp_index d ∉ BitVector.data (DefinitionWorklist.contains_vector_ w))
    as Hfresh.
  { intros Hin. apply (Contains_bit w d) in Hin; [congruence | lia]. }
  destruct w as [defs [len bits]]. simpl in *. do 4 f_equal. set_solver.
Qed.

Lemma DefinitionWorklist_Add_RemoveLast_witness :
  let H := ssa_heap in
  let w := DefinitionWorklist.new graph_after_prologue 8 in
  ∃ w1, DefinitionWorklist.Add w 3%nat = Some w1 ∧
        DefinitionWorklist.RemoveLast w1 = Some (3%nat, w).
Proof.
  intros H w.
  apply (@DefinitionWorklist_Add_RemoveLast H w 3%nat); reflexivity.
Defined.

(** [AllocateSSAIndex] hands out the current index and advances the
    counter by one: below the top of the word, two allocations in a row
    give consecutive, hence distinct, indices. *)
Theorem AllocateSSAIndex_consecutive (g : FlowGraph) :
  - 2 ^ 63 ≤ current_ssa_temp_index_ g < 2 ^ 63 - 2 →
  let '(i1, g1) := FG.AllocateSSAIndex g in
  let '(i2, g2) := FG.AllocateSSAIndex g1 in
  i1 = current_ssa_temp_index_ g ∧ i2 = i1 + 1 ∧
  current_ssa_temp_index_ g2 = i1 + 2.
Proof.
  intros Hrange. unfold FG.AllocateSSAIndex. simpl.
  rewrite !wrap_intptr_small by (rewrite ?wrap_intptr_small; lia). lia.
Qed.

Lemma AllocateSSAIndex_consecutive_witness :
  let '(i1, g1) := FG.AllocateSSAIndex fresh_graph in
  let '(i2, g2) := FG.AllocateSSAIndex g1 in
  i1 = current_ssa_temp_index_ fresh_graph ∧ i2 = i1 + 1 ∧
  current_ssa_temp_index_ g2 = i1 + 2.
Proof.
  apply (AllocateSSAIndex_consecutive fresh_graph). by vm_compute.
Defined.

(** [EnvIndex] is the number of direct parameters minus the variable's
    frame index, and for frame indices and parameter counts that fit in
    32 bits two variables have the same environment index exactly when
    they have the same frame index. *)
Theorem EnvIndex_injective (g : FlowGraph) (v1 v2 : LocalVariable) :
  0 ≤ num_direct_parameters_ g < 2 ^ 31 →
  - 2 ^ 31 ≤ index_value v1 < 2 ^ 31 →
  - 2 ^ 31 ≤ index_value v2 < 2 ^ 31 →
  FG.EnvIndex g v1 = num_direct_parameters_ g - index_value v1 ∧
  (FG.EnvIndex g v1 = FG.EnvIndex g v2 ↔ index_value v1 = index_value v2).
Proof.
  intros Hn H1 H2. unfold FG.EnvIndex.
  rewrite !wrap_intptr_small by lia. split; [done | lia].
Qed.

Lemma EnvIndex_injective_witness :
  FG.EnvIndex fresh_graph (mkLocalVariable (-1) false) =
    num_direct_parameters_ fresh_graph - (-1) ∧
  (FG.EnvIndex fresh_graph (mkLocalVariable (-1) false) =
   FG.EnvIndex fresh_graph (mkLocalVariable (-2) false) ↔ -1 = -2).
Proof.
  apply (EnvIndex_injective fresh_graph (mkLocalVariable (-1) false)
           (mkLocalVariable (-2) false)); by vm_compute.
Defined.

(** ** Hash and key equality of the constant pool *)

(** When non-null objects hash by pointer, the pool's hash agrees with
    its key equality: an entry that [IsKeyEqual] accepts for a key built
    from a constant and a representation hashes as that key does. For
    null this holds by the special case in [ComputeHash], whatever the
    handles answer. *)
Theorem Hash_respects_IsKeyEqual `{ObjectModel}
    (kv : ConstantInstr) (c : Object) (r : Representation) :
  hash_by_pointer →
  ConstantPoolTrait.IsKeyEqual kv (ConstantAndRepresentation.new c r) = true →
  ConstantPoolTrait.Hash (ConstantPoolTrait.KeyOf kv) =
    ConstantPoolTrait.Hash (ConstantAndRepresentation.new c r).
Proof.
  intros Hptr Heq.
  unfold ConstantPoolTrait.IsKeyEqual in Heq.
  apply andb_true_iff in Heq as [Hp _]. apply bool_decide_eq_true in Hp.
  simpl in Hp.
  unfold ConstantPoolTrait.Hash, ConstantPoolTrait.KeyOf,
    ConstantAndRepresentation.hash, ConstantAndRepresentation.new. simpl.
  unfold ConstantAndRepresentation.ComputeHash, IsNull.
  rewrite Hp. case_bool_decide as Hnull; [done|].
  rewrite <- Hp in Hnull.
  destruct (Hptr (value kv) c Hp Hnull) as (-> & -> & ->). done.
Qed.

Lemma Hash_respects_IsKeyEqual_witness :
  let H := pointer_hashed_objects in
  ConstantPoolTrait.Hash
    (ConstantPoolTrait.KeyOf (mkConstantInstr (mkObject 0 5) kTagged 4)) =
  ConstantPoolTrait.Hash (ConstantAndRepresentation.new (mkObject 0 9) kTagged).
Proof.
  intros H.
  apply (@Hash_respects_IsKeyEqual H (mkConstantInstr (mkObject 0 5) kTagged 4)
           (mkObject 0 9) kTagged);
    [exact pointer_hashed_objects_by_pointer | reflexivity].
Defined.

(** Without the special case the two null handles of the witness would
    hash apart: [CanonicalizeHash] answers 5 for one and 9 for the
    other. *)
Example null_handles_hash_apart :
  let H := pointer_hashed_objects in
  CanonicalizeHash (mkObject 0 5) ≠ CanonicalizeHash (mkObject 0 9).
Proof. by vm_compute. Qed.

(** ** Block ids *)

Lemma allocate_block_ids_spec (count : nat) (g : FlowGraph) :
  - 2 ^ 63 ≤ max_block_id_ g →
  max_block_id_ g + Z.of_nat count < 2 ^ 63 →
  BlockIds.allocate_block_ids count g =
    ((λ i : nat, max_block_id_ g + Z.of_nat i) <$> seq 1 count,
     BlockIds.set_max_block_id g (max_block_id_ g + Z.of_nat count)).
Proof.
  revert g. induction count as [|n IH]; intros g Hlo Hhi.
  - simpl. f_equal. destruct g; unfold BlockIds.set_max_block_id; simpl.
    f_equal. lia.
  - cbn [BlockIds.allocate_block_ids]. unfold BlockIds.allocate_block_id.
    rewrite wrap_intptr_small by lia.
    rewrite IH by (simpl; lia). cbn [seq fmap list_fmap]. f_equal.
    + f_equal; try lia.
      change (list_fmap nat Z ?f ?l) with (f <$> l).
      rewrite <- (fmap_S_seq 1 n), <- list_fmap_compose.
      apply list_fmap_ext. intros i x _. simpl. lia.
    + unfold BlockIds.set_max_block_id. simpl. f_equal. lia.
Qed.

(** [count] block ids allocated in a row from a graph whose highest block
    id is [m] are [m + 1, ..., m + count], in this order: they are
    pairwise distinct, each is above every id in use before, and the
    highest block id afterwards is the last one handed out. *)
Theorem allocate_block_ids_fresh (count : nat) (g : FlowGraph) :
  - 2 ^ 63 ≤ max_block_id_ g →
  max_block_id_ g + Z.of_nat count < 2 ^ 63 →
  let '(ids, g') := BlockIds.allocate_block_ids count g in
  ids = (λ i : nat, max_block_id_ g + Z.of_nat i) <$> seq 1 count ∧
  max_block_id_ g' = max_block_id_ g + Z.of_nat count ∧
  NoDup ids ∧
  ∀ id, id ∈ ids → max_block_id_ g < id ≤ max_block_id_ g'.
Proof.
  intros Hlo Hhi. rewrite allocate_block_ids_spec by done.
  split; [done|]. split; [done|]. split.
  - apply NoDup_fmap_2; [|apply NoDup_seq]. intros i j. lia.
  - intros id [i [-> Hi]]%list_elem_of_fmap.
    apply elem_of_seq in Hi. simpl. lia.
Qed.

Lemma allocate_block_ids_fresh_witness :
  let '(ids, g') := BlockIds.allocate_block_ids 3 graph_after_prologue in
  ids = (λ i : nat, max_block_id_ graph_after_prologue + Z.of_nat i) <$> seq 1 3 ∧
  max_block_id_ g' = max_block_id_ graph_after_prologue + Z.of_nat 3 ∧
  NoDup ids ∧
  ∀ id, id ∈ ids → max_block_id_ graph_after_prologue < id ≤ max_block_id_ g'.
Proof.
  apply (allocate_block_ids_fresh 3 graph_after_prologue); by vm_compute.
Defined.

(** Blocks created after the prologue are not prologue blocks: when the
    prologue's range ends at or below the highest block id of the graph,
    [PrologueInfo::Contains] rejects every id allocated from then on. *)
Theorem allocated_blocks_outside_prologue (count : nat) (g : FlowGraph) :
  - 2 ^ 63 ≤ max_block_id_ g →
  max_block_id_ g + Z.of_nat count < 2 ^ 63 →
  max_block_id (prologue_info_ g) ≤ max_block_id_ g →
  ∀ id, id ∈ (BlockIds.allocate_block_ids count g).1 →
        PrologueInfo_Contains (prologue_info_ g) id = false.
Proof.
  intros Hlo Hhi Hpro id. rewrite allocate_block_ids_spec by done. simpl.
  intros [i [-> Hi]]%list_elem_of_fmap. apply elem_of_seq in Hi.
  unfold PrologueInfo_Contains. apply andb_false_iff. right.
  apply Z.leb_gt. lia.
Qed.

Lemma allocated_blocks_outside_prologue_witness :
  9 ∈ (BlockIds.allocate_block_ids 3 graph_after_prologue).1 ∧
  PrologueInfo_Contains (prologue_info_ graph_after_prologue) 9 = false.
Proof.
  assert (9 ∈ (BlockIds.allocate_block_ids 3 graph_after_prologue).1) as Hin.
  { change (9 ∈ [8; 9; 10]). apply list_elem_of_further, list_elem_of_here. }
  split; [exact Hin|].
  apply (allocated_blocks_outside_prologue 3 graph_after_prologue);
    [by vm_compute | by vm_compute | by vm_compute | exact Hin].
Defined.

(** ** Pass flags *)

Lemma call_flags (g g' : FlowGraph) (m : Flags.Mutator) :
  Flags.call g m = Some g' →
  Flags.is_licm_allowed g' =
    Flags.is_licm_allowed g && bool_decide (m ≠ Flags.DisallowLicm) ∧
  Flags.unmatched_representations_allowed g' =
    Flags.unmatched_representations_allowed g &&
    bool_decide (m ≠ Flags.DisallowUnmatchedRepresentations) ∧
  Flags.is_huge_method g' =
    Flags.is_huge_method g || bool_decide (m = Flags.MarkHugeMethod).
Proof.
  unfold Flags.is_licm_allowed, Flags.unmatched_representations_allowed,
    Flags.is_huge_method.
  destruct m; simpl;
    try (intros [= <-]; simpl;
         rewrite ?andb_true_r, ?andb_false_r, ?orb_false_r, ?orb_true_r; done).
  unfold FG.set_max_argument_slot_count, RELEASE_ASSERT.
  destruct (max_argument_slot_count_ g =? -1); simpl; [|done].
  intros [= <-]. simpl. by rewrite !andb_true_r, orb_false_r.
Qed.

(** The pass flags only move one way. After any sequence of calls of the
    header's mutators that no release assertion aborts, LICM is allowed
    exactly when it was allowed before and [disallow_licm] is not among
    the calls, and likewise for unmatched representations; the graph is
    marked huge exactly when it was before or [mark_huge_method] is among
    the calls. So once [disallow_licm] has been called [CopyDeoptTarget]
    leaves its target untouched, whatever is called later. *)
Theorem pass_flags_one_way (g g' : FlowGraph) (ms : list Flags.Mutator) :
  Flags.calls g ms = Some g' →
  Flags.is_licm_allowed g' =
    Flags.is_licm_allowed g && bool_decide (Flags.DisallowLicm ∉ ms) ∧
  Flags.unmatched_representations_allowed g' =
    Flags.unmatched_representations_allowed g &&
    bool_decide (Flags.DisallowUnmatchedRepresentations ∉ ms) ∧
  Flags.is_huge_method g' =
    Flags.is_huge_method g || bool_decide (Flags.MarkHugeMethod ∈ ms) ∧
  (Flags.DisallowLicm ∈ ms →
   ∀ (Instruction : Type) (inherit : Instruction → Instruction → Instruction)
     (to from : Instruction),
     Flags.CopyDeoptTarget inherit g' to from = to).
Proof.
  intros Hrun.
  assert (Flags.is_licm_allowed g' =
            Flags.is_licm_allowed g && bool_decide (Flags.DisallowLicm ∉ ms) ∧
          Flags.unmatched_representations_allowed g' =
            Flags.unmatched_representations_allowed g &&
            bool_decide (Flags.DisallowUnmatchedRepresentations ∉ ms) ∧
          Flags.is_huge_method g' =
            Flags.is_huge_method g || bool_decide (Flags.MarkHugeMethod ∈ ms))
    as (Hl & Hu & Hh).
  { revert g Hrun. induction ms as [|m ms IH]; intros g Hrun.
    - injection Hrun as <-.
      rewrite (bool_decide_eq_false_2 (_ ∈ [])) by apply not_elem_of_nil.
      rewrite !bool_decide_eq_true_2 by apply not_elem_of_nil.
      by rewrite !andb_true_r, orb_false_r.
    - simpl in Hrun. destruct (Flags.call g m) as [g1|] eqn:Hcall; [|done].
      simpl in Hrun. destruct (IH g1 Hrun) as (Hl & Hu & Hh).
      destruct (call_flags g g1 m Hcall) as (Hl1 & Hu1 & Hh1).
      rewrite Hl, Hu, Hh, Hl1, Hu1, Hh1.
      rewrite <- !andb_assoc, <- !orb_assoc.
      split; [|split]; f_equal; repeat case_bool_decide; try done;
        rewrite ?not_elem_of_cons, ?elem_of_cons in *; naive_solver. }
  split; [done|]. split; [done|]. split; [done|].
  intros Hin Instruction inherit to from. unfold Flags.CopyDeoptTarget.
  rewrite Hl, (bool_decide_eq_false_2 (_ ∉ ms)) by tauto.
  by rewrite andb_false_r.
Qed.

Lemma pass_flags_one_way_witness :
  ∃ g', Flags.calls fresh_graph
          [Flags.DisallowLicm; Flags.AllocateBlockId; Flags.SetMaxArgumentSlotCount 4] =
          Some g' ∧
        Flags.is_licm_allowed g' = false ∧
        Flags.CopyDeoptTarget (λ to from : nat, from) g' 1%nat 2%nat = 1%nat.
Proof.
  eexists. split; [reflexivity|].
  destruct (pass_flags_one_way fresh_graph _
              [Flags.DisallowLicm; Flags.AllocateBlockId; Flags.SetMaxArgumentSlotCount 4]
              eq_refl) as (Hl & _ & _ & Hcopy).
  split; [exact Hl|]. apply Hcopy. apply list_elem_of_here.
Defined.

(** ** The loop hierarchy cache *)

(** [GetLoopHierarchy] computes the loops only when none are cached.
    After a call the hierarchy it returned is the cached one; a later
    call returns that same hierarchy without looking at the blocks, even
    when they were changed in between, until [ResetLoopHierarchy]: the
    first call after a reset computes the loops of the blocks as they are
    then. [ResetLoopHierarchy] also drops the loop invariant loads. *)
Theorem GetLoopHierarchy_cached {Blocks LoopHierarchy InvariantLoads : Type}
    (ComputeLoops : Blocks → LoopHierarchy)
    (g : LoopCache.t Blocks LoopHierarchy InvariantLoads) :
  let '(h, g1) := LoopCache.GetLoopHierarchy ComputeLoops g in
  LoopCache.loop_hierarchy g1 = Some h ∧
  LoopCache.loop_invariant_loads g1 = LoopCache.loop_invariant_loads g ∧
  (LoopCache.loop_hierarchy g = None → h = ComputeLoops (LoopCache.blocks_ g)) ∧
  (∀ blocks,
     LoopCache.GetLoopHierarchy ComputeLoops (LoopCache.with_blocks g1 blocks) =
       (h, LoopCache.with_blocks g1 blocks)) ∧
  (∀ blocks,
     let g2 := LoopCache.ResetLoopHierarchy (LoopCache.with_blocks g1 blocks) in
     LoopCache.loop_hierarchy g2 = None ∧
     LoopCache.loop_invariant_loads g2 = None ∧
     (LoopCache.GetLoopHierarchy ComputeLoops g2).1 = ComputeLoops blocks).
Proof.
  unfold LoopCache.GetLoopHierarchy.
  destruct (LoopCache.loop_hierarchy_ g) as [h|] eqn:Hcache; simpl.
  - rewrite Hcache. repeat split; try done. intros Hnone.
    unfold LoopCache.loop_hierarchy in Hnone. congruence.
  - repeat split; done.
Qed.

(** A client that caches the hierarchy, changes two blocks and asks
    again is answered from the cache. *)
Example stale_loop_hierarchy :
  let count_blocks := λ blocks : list nat, length blocks in
  let g : LoopCache.t (list nat) nat unit := LoopCache.mk [1; 2; 3]%nat None None in
  let '(h, g1) := LoopCache.GetLoopHierarchy count_blocks g in
  let g2 := LoopCache.with_blocks g1 [1]%nat in
  h = 3%nat ∧
  (LoopCache.GetLoopHierarchy count_blocks g2).1 = 3%nat ∧
  (LoopCache.GetLoopHierarchy count_blocks (LoopCache.ResetLoopHierarchy g2)).1 = 1%nat.
Proof. by vm_compute. Qed.

(** ** What [Contains] answers *)

(** [Contains] follows the SSA indices that went through the worklist,
    not the definitions. For a definition [d'] whose index is below the
    length of the vector: after an [Add d] that succeeded it holds
    exactly when it held before or [d'] carries the non-negative index
    of [d]; after a [RemoveLast] that returned [d] it holds exactly when
    it held before and [d'] does not carry the index of [d]; on a new or
    cleared worklist it does not hold. *)
Theorem Contains_tracks_indices `{DefinitionHeap} (w : DefinitionWorklist.t) :
  (∀ d w1 d',
     DefinitionWorklist.Add w d = Some w1 →
     ssa_temp_index d' < BitVector.length (DefinitionWorklist.contains_vector w) →
     DefinitionWorklist.Contains w1 d' =
       DefinitionWorklist.Contains w d' ||
       ((0 <=? ssa_temp_index d') &&
        bool_decide (ssa_temp_index d' = ssa_temp_index d))) ∧
  (∀ d w1 d',
     DefinitionWorklist.RemoveLast w = Some (d, w1) →
     ssa_temp_index d' < BitVector.length (DefinitionWorklist.contains_vector w) →
     DefinitionWorklist.Contains w1 d' =
       DefinitionWorklist.Contains w d' &&
       negb (bool_decide (ssa_temp_index d' = ssa_temp_index d))) ∧
  (∀ d',
     ssa_temp_index d' < BitVector.length (DefinitionWorklist.contains_vector w) →
     DefinitionWorklist.Contains (DefinitionWorklist.Clear w) d' = false) ∧
  (∀ g capacity d',
     ssa_temp_index d' < current_ssa_temp_index_ g →
     DefinitionWorklist.Contains (DefinitionWorklist.new g capacity) d' = false).
Proof.
  split; [|split; [|split]].
  - intros d w1 d' Hadd _. unfold DefinitionWorklist.Add in Hadd.
    destruct (DefinitionWorklist.Contains w d) eqn:Hc; simpl in Hadd.
    + injection Hadd as <-.
      unfold DefinitionWorklist.Contains, BitVector.Contains in *.
      destruct (0 <=? ssa_temp_index d') eqn:Hd'; simpl; [|done].
      apply andb_true_iff in Hc as [_ Hc]. apply bool_decide_eq_true in Hc.
      repeat case_bool_decide; try done. congruence.
    + destruct (BitVector.Add _ _) as [bits|] eqn:Hbits; [|done].
      injection Hadd as <-. unfold BitVector.Add in Hbits.
      destruct (BitVector.in_range _ _); [|done]. injection Hbits as <-.
      unfold DefinitionWorklist.Contains, BitVector.Contains. simpl.
      destruct (0 <=? ssa_temp_index d'); simpl; [|done].
      repeat case_bool_decide; try done; set_solver.
  - intros d w1 d' Hremove _. unfold DefinitionWorklist.RemoveLast in Hremove.
    destruct (last (DefinitionWorklist.defs_ w)) as [d0|]; simpl in Hremove; [|done].
    destruct (BitVector.Remove _ _) as [bits|] eqn:Hbits; [|done].
    injection Hremove as -> <-. unfold BitVector.Remove in Hbits.
    destruct (BitVector.in_range _ _); [|done]. injection Hbits as <-.
    unfold DefinitionWorklist.Contains, BitVector.Contains. simpl.
    destruct (0 <=? ssa_temp_index d'); simpl; [|done].
    repeat case_bool_decide; try done; set_solver.
  - intros d' _. unfold DefinitionWorklist.Contains, BitVector.Contains. simpl.
    rewrite bool_decide_eq_false_2 by set_solver. apply andb_false_r.
  - intros g capacity d' _. unfold DefinitionWorklist.Contains, BitVector.Contains. simpl.
    rewrite bool_decide_eq_false_2 by set_solver. apply andb_false_r.
Qed.

(** Twelve definitions are numbered; definitions 2 and 3 share index 1
    in [colliding_heap]: after [Add] of the one, [Contains] holds of the
    other. *)
Example Contains_by_index :
  let H := colliding_heap in
  ∃ w1, DefinitionWorklist.Add (DefinitionWorklist.new graph_after_prologue 8) 2%nat =
          Some w1 ∧
        DefinitionWorklist.Contains w1 3%nat = true ∧
        DefinitionWorklist.Contains w1 4%nat = false.
Proof. eexists. by vm_compute. Qed.



(** ** Draining the worklist *)

Section DrainFacts.
Context `{DefinitionHeap}.

Lemma Drain_spec (defs : list DefinitionPtr) (bits : BitVector.t) :
  (∀ d, d ∈ defs → BitVector.in_range bits (ssa_temp_index d) = true) →
  WorklistLoop.Drain (length defs) (DefinitionWorklist.mk defs bits) =
    Some (reverse defs,
          DefinitionWorklist.mk []
            (BitVector.mk (BitVector.length bits)
               (BitVector.data bits ∖ list_to_set (ssa_temp_index <$> defs)))).
Proof.
  revert bits. induction defs as [|d defs IH] using rev_ind; intros bits Hrange.
  - simpl. do 3 f_equal. destruct bits as [len data]. simpl. f_equal. set_solver.
  - rewrite length_app, Nat.add_1_r. cbn [WorklistLoop.Drain].
    unfold DefinitionWorklist.IsEmpty. simpl.
    rewrite bool_decide_eq_false_2 by (by destruct defs).
    rewrite RemoveLast_snoc by (apply Hrange; set_solver). simpl.
    rewrite IH by (intros d0 Hd0; apply Hrange; set_solver). simpl.
    rewrite reverse_snoc. do 4 f_equal.
    rewrite fmap_app, list_to_set_app_L. simpl. set_solver.
Qed.

End DrainFacts.

(** The loop [while (!worklist.IsEmpty()) worklist.RemoveLast()] run on a
    worklist whose bit vector agrees with its array (every listed
    definition has a bit in the vector) stops after as many steps as
    definitions are listed, returns them last added first, and leaves a
    worklist that is empty and contains none of the definitions the
    vector has a bit for. *)
Theorem Drain_empties_worklist `{DefinitionHeap} (w : DefinitionWorklist.t) :
  DefinitionWorklist.in_sync w →
  ∃ w', WorklistLoop.Drain (length (DefinitionWorklist.definitions w)) w =
          Some (reverse (DefinitionWorklist.definitions w), w') ∧
        DefinitionWorklist.IsEmpty w' = true ∧
        BitVector.length (DefinitionWorklist.contains_vector w') =
          BitVector.length (DefinitionWorklist.contains_vector w) ∧
        ∀ d, DefinitionWorklist.covers w d →
             DefinitionWorklist.Contains w' d = false.
Proof.
  intros (_ & Hlisted & Hiff & _). destruct w as [defs bits]. eexists. split.
  - apply Drain_spec. exact Hlisted.
  - split; [done|]. split; [done|]. intros d Hd.
    destruct (DefinitionWorklist.Contains _ d) eqn:Hc; [|done]. exfalso.
    unfold DefinitionWorklist.Contains, BitVector.Contains in Hc. simpl in Hc.
    apply andb_true_iff in Hc as [Hd0 Hbit]. apply Z.leb_le in Hd0.
    apply bool_decide_eq_true in Hbit.
    apply elem_of_difference in Hbit as [Hbit Hout]. apply Hout.
    apply elem_of_list_to_set, list_elem_of_fmap. exists d. split; [done|].
    apply (Hiff d Hd), Contains_bit; done.
Qed.

Lemma listed_worklist_in_sync :
  @DefinitionWorklist.in_sync ssa_heap
    (DefinitionWorklist.mk [3%nat; 5%nat] (BitVector.mk 12 {[2; 4]})).
Proof.
  split; [|split; [|split]].
  - intros i Hi. apply elem_of_universe. simpl in *. set_solver by lia.
  - intros d Hd. apply in_range_spec. simpl in *. set_solver by lia.
  - intros d Hd%in_range_spec. simpl in Hd.
    rewrite Contains_bit by (simpl; lia). simpl.
    rewrite !elem_of_union, !elem_of_singleton, !elem_of_cons, elem_of_nil. lia.
  - simpl. apply NoDup_cons. split; [set_solver by lia|]. apply NoDup_singleton.
Qed.

Lemma Drain_empties_worklist_witness :
  let H := ssa_heap in
  let w := DefinitionWorklist.mk [3%nat; 5%nat] (BitVector.mk 12 {[2; 4]}) in
  ∃ w', WorklistLoop.Drain 2 w = Some ([5%nat; 3%nat], w') ∧
        DefinitionWorklist.IsEmpty w' = true ∧
        BitVector.length (DefinitionWorklist.contains_vector w') = 12 ∧
        ∀ d, DefinitionWorklist.covers w d →
             DefinitionWorklist.Contains w' d = false.
Proof.
  intros H w.
  apply (@Drain_empties_worklist H w). exact listed_worklist_in_sync.
Defined.

(** ** Environment slots *)

(** The environment has [variable_count] slots and [EnvIndex] addresses
    them by frame index: for counts and indices that fit in 32 bits, a
    variable's environment index is a slot of the environment exactly
    when its frame index lies between [1 - num_stack_locals] and
    [num_direct_parameters]; parameters (positive frame indices) take the
    first [num_direct_parameters] slots and stack locals the rest. *)
Theorem EnvIndex_within_variable_count (g : FlowGraph) (v : LocalVariable) :
  0 ≤ num_direct_parameters_ g < 2 ^ 31 →
  0 ≤ num_stack_locals (parsed_function_ g) < 2 ^ 31 →
  - 2 ^ 31 ≤ index_value v < 2 ^ 31 →
  (0 ≤ FG.EnvIndex g v < FG.variable_count g ↔
     - num_stack_locals (parsed_function_ g) < index_value v ≤ num_direct_parameters_ g) ∧
  (0 ≤ FG.EnvIndex g v < num_direct_parameters_ g ↔
     0 < index_value v ≤ num_direct_parameters_ g).
Proof.
  intros Hp Hl Hv. unfold FG.EnvIndex, FG.variable_count.
  rewrite !wrap_intptr_small by lia. lia.
Qed.

Lemma EnvIndex_within_variable_count_witness :
  (0 ≤ FG.EnvIndex fresh_graph (mkLocalVariable (-1) false) < FG.variable_count fresh_graph ↔
     - num_stack_locals (parsed_function_ fresh_graph) < -1 ≤
       num_direct_parameters_ fresh_graph) ∧
  (0 ≤ FG.EnvIndex fresh_graph (mkLocalVariable (-1) false) <
     num_direct_parameters_ fresh_graph ↔
     0 < -1 ≤ num_direct_parameters_ fresh_graph).
Proof.
  apply (EnvIndex_within_variable_count fresh_graph (mkLocalVariable (-1) false));
    by vm_compute.
Defined.

(** ** The unset slot count *)

Lemma write_unset_slot_count (g : FlowGraph) :
  max_argument_slot_count_ g = -1 →
  FG.set_max_argument_slot_count g (-1) = Some g.
Proof.
  intros Hunset. unfold FG.set_max_argument_slot_count, RELEASE_ASSERT.
  rewrite Hunset. simpl. f_equal.
  destruct g. unfold FG.write_max_argument_slot_count. simpl in *. by subst.
Qed.

(** Setting the slot count to -1 leaves it unset: on a graph whose count
    is unset, any number of calls of the setter with -1 pass the release
    assertion and change nothing, the next call with a non-negative count
    still succeeds, and every read after it returns that count. *)
Theorem set_max_argument_slot_count_unset (g : FlowGraph) (k reads : nat) (count : Z) :
  max_argument_slot_count_ g = -1 →
  0 ≤ count →
  FG.set_max_argument_slot_count g (-1) = Some g ∧
  FG.run g (replicate k (FG.SetSlotCount (-1)) ++
            FG.SetSlotCount count :: replicate reads FG.ReadSlotCount) =
    Some (FG.write_max_argument_slot_count g count, replicate reads count).
Proof.
  intros Hunset Hcount. split; [by apply write_unset_slot_count|].
  induction k as [|k IH]; simpl.
  - unfold FG.set_max_argument_slot_count, RELEASE_ASSERT. rewrite Hunset. simpl.
    by rewrite run_reads.
  - rewrite write_unset_slot_count by done. simpl. exact IH.
Qed.

Lemma set_max_argument_slot_count_unset_witness :
  FG.set_max_argument_slot_count fresh_graph (-1) = Some fresh_graph ∧
  FG.run fresh_graph
    (replicate 2 (FG.SetSlotCount (-1)) ++
     FG.SetSlotCount 3 :: replicate 1 FG.ReadSlotCount) =
    Some (FG.write_max_argument_slot_count fresh_graph 3, replicate 1 3).
Proof.
  apply (set_max_argument_slot_count_unset fresh_graph 2 1 3); [reflexivity | lia].
Defined.

(** ** Keys of one constant *)

(** The hash of a pool key is computed from the constant alone, the
    representation does not enter it, while [IsKeyEqual] compares the
    representation: the entries of one constant in different
    representations share a hash, and each answers only the key of its
    own representation. *)
Theorem Hash_ignores_representation `{ObjectModel}
    (c : Object) (r1 r2 : Representation) (index : Z) :
  ConstantPoolTrait.Hash (ConstantAndRepresentation.new c r1) =
    ConstantPoolTrait.Hash (ConstantAndRepresentation.new c r2) ∧
  ConstantPoolTrait.IsKeyEqual (mkConstantInstr c r1 index)
    (ConstantAndRepresentation.new c r2) = bool_decide (r1 = r2).
Proof.
  split; [reflexivity|].
  unfold ConstantPoolTrait.IsKeyEqual. simpl.
  by rewrite bool_decide_eq_true_2.
Qed.

(** ** The universe of the worklist's bit vector *)

(** The bit vector of a worklist is sized by the SSA counter of the graph
    at the time the worklist is created and never resized. As long as
    the definitions added carry an index below that size, every bit set
    lies inside the vector, through [Add], [RemoveLast] and [Clear]; a
    definition numbered after the worklist was created has its bit
    outside the vector, and adding it to the new worklist fails. *)
Theorem contains_vector_universe `{DefinitionHeap} :
  (∀ g capacity,
     let w := DefinitionWorklist.new g capacity in
     BitVector.length (DefinitionWorklist.contains_vector w) = current_ssa_temp_index_ g ∧
     BitVector.in_universe (DefinitionWorklist.contains_vector w)) ∧
  (∀ w d,
     BitVector.in_universe (DefinitionWorklist.contains_vector w) →
     0 ≤ ssa_temp_index d < BitVector.length (DefinitionWorklist.contains_vector w) →
     ∃ w', DefinitionWorklist.Add w d = Some w' ∧
           BitVector.length (DefinitionWorklist.contains_vector w') =
             BitVector.length (DefinitionWorklist.contains_vector w) ∧
           BitVector.in_universe (DefinitionWorklist.contains_vector w')) ∧
  (∀ w d w',
     BitVector.in_universe (DefinitionWorklist.contains_vector w) →
     DefinitionWorklist.RemoveLast w = Some (d, w') →
     BitVector.length (DefinitionWorklist.contains_vector w') =
       BitVector.length (DefinitionWorklist.contains_vector w) ∧
     BitVector.in_universe (DefinitionWorklist.contains_vector w')) ∧
  (∀ w,
     let w' := DefinitionWorklist.Clear w in
     BitVector.length (DefinitionWorklist.contains_vector w') =
       BitVector.length (DefinitionWorklist.contains_vector w) ∧
     BitVector.in_universe (DefinitionWorklist.contains_vector w')) ∧
  (∀ g capacity d,
     current_ssa_temp_index_ g ≤ ssa_temp_index d →
     BitVector.in_range
       (DefinitionWorklist.contains_vector (DefinitionWorklist.new g capacity))
       (ssa_temp_index d) = false ∧
     DefinitionWorklist.Add (DefinitionWorklist.new g capacity) d = None).
Proof.
  unfold BitVector.in_universe, DefinitionWorklist.contains_vector.
  split; [|split; [|split; [|split]]].
  - intros g capacity. simpl. split; [done | set_solver].
  - intros w d Hin Hd.
    destruct (DefinitionWorklist.Contains w d) eqn:Hc.
    + exists w. split; [by apply Add_present | done].
    + eexists. split; [apply Add_absent; [by apply covers_index | done]|].
      simpl. split; [done|].
      intros i [->%elem_of_singleton|Hi]%elem_of_union.
      * by apply elem_of_universe.
      * by apply Hin.
  - intros w d w' Hin. unfold DefinitionWorklist.RemoveLast.
    destruct (last (DefinitionWorklist.defs_ w)) as [d0|]; simpl; [|done].
    unfold BitVector.Remove.
    destruct (BitVector.in_range _ _); simpl; [|done].
    intros [= -> <-]. simpl. split; [done|]. set_solver.
  - intros w. simpl. split; [done | set_solver].
  - intros g capacity d Hd.
    assert (BitVector.in_range (BitVector.new (current_ssa_temp_index_ g))
              (ssa_temp_index d) = false) as Hout.
    { unfold BitVector.in_range. simpl.
      destruct (Z.ltb_spec (ssa_temp_index d) (current_ssa_temp_index_ g)); [lia|].
      apply andb_false_r. }
    split; [exact Hout|].
    unfold DefinitionWorklist.Add, DefinitionWorklist.Contains, BitVector.Contains.
    simpl. rewrite bool_decide_eq_false_2 by set_solver.
    rewrite andb_false_r. simpl.
    unfold BitVector.Add. by rewrite Hout.
Qed.

(** A definition numbered by [AllocateSSAIndex] after the worklist was
    created is such a definition: in [ssa_heap] definition 13 carries
    index 12, the index [graph_after_prologue] hands out next. *)
Example worklist_older_than_definition :
  let H := ssa_heap in
  let '(index, g1) := FG.AllocateSSAIndex graph_after_prologue in
  ssa_temp_index 13%nat = index ∧
  DefinitionWorklist.Add (DefinitionWorklist.new graph_after_prologue 8) 13%nat = None ∧
  is_Some (DefinitionWorklist.Add (DefinitionWorklist.new g1 8) 13%nat).
Proof. split; [reflexivity|]. split; [reflexivity|]. by eexists. Qed.
